(** * Added-mass motions: equations of motion, integrator and point transform

    A shallow embedding of the notebook [notebooks/Added Mass Motions.ipynb]
    (functions [hat], [generate_equations_of_motion], [generate_discrete_eom]
    and [apply_discrete_eom]) and of equation (eq:transform2) of
    [docs/added_mass_transformations.tex].

    Conventions of the embedding:
    - a [float64] is an element of an arbitrary field [F] (an ordered one
      where the code compares numbers): arithmetic is exact, so rounding,
      NaN and tolerances are outside the model; the one place where
      rounding decides between raising and returning, the inversion of a
      matrix that has no inverse, is a parameter of the engine;
    - a 1-dimensional ndarray of 3 (resp. 6) elements is a column vector
      ['cV[F]_3] (resp. ['cV[F]_(3+3)]), a 6x6 ndarray is ['M[F]_(3+3)];
      [@] is [*m], [.T] is [^T], [M[:3, :3]] is [ulsubmx M], [v[:3]] is
      [usubmx v], [np.r_]/[np.c_] of four blocks is [block_mx];
    - a Python exception is a value [Raise e] of the type [result];
    - the output arguments of [discrete_eom] are returned as a triple, and
      the driver stores them in the slots the notebook passes as views. *)

From HB Require Import structures.
From mathcomp Require Import ssreflect ssrfun ssrbool eqtype ssrnat seq.
From mathcomp Require Import choice fintype bigop.
From mathcomp Require Import order ssralg ssrnum ssrint rat matrix.
From mathcomp Require Import ring_tactic field_tactic.

Set Implicit Arguments.
Unset Strict Implicit.
Unset Printing Implicit Defensive.

Import GRing.Theory Num.Theory Order.Theory.
Local Open Scope ring_scope.

(** ** Exceptions *)

(** The exceptions the modelled code can raise: [np.linalg.inv] on a
    singular matrix ([LinAlgError], the spec's NumericalError), an index
    out of the bounds of an array ([IndexError]) and the rotation matrix of
    the zero quaternion ([ZeroDivisionError]). *)
Inductive exn : Type := LinAlgError | IndexError | ZeroDivisionError.

Inductive result (A : Type) : Type :=
| Ok of A
| Raise of exn.

Arguments Raise {A} e.

Definition bind (A B : Type) (m : result A) (k : A -> result B) : result B :=
  match m with
  | Ok a => k a
  | Raise e => Raise e
  end.

Notation "x <- m ;; k" := (bind m (fun x => k))
  (at level 61, m at next level, right associativity,
   format "'[v' x  <-  m  ;;  '/' k ']'").

(** ** Arrays indexed along their first axis *)

Section Arrays.

Variable T : Type.

(** [s[n]] for [0 <= n]: the element, or [IndexError] past the end. *)
Definition getitem (s : seq T) (n : nat) : result T :=
  if drop n s is x :: _ then Ok x else Raise IndexError.

(** A left fold of a fallible loop body over the values of [range]. *)
Fixpoint for_range (S : Type) (body : nat -> S -> result S)
    (range : seq nat) (st : S) : result S :=
  if range is n :: range' then
    st' <- body n st ;; for_range body range' st'
  else Ok st.

End Arrays.

(** ** The engine *)

Section Engine.

Variable F : fieldType.

Notation vec3 := 'cV[F]_3.
Notation vec6 := 'cV[F]_(3 + 3).
Notation mat3 := 'M[F]_3.
Notation mat6 := 'M[F]_(3 + 3).

(** [v[k]] on a 3-element vector. *)
Definition getv (v : vec3) (k : nat) : F :=
  if insub k is Some i then v i 0 else 0.

(** A 3x3 array written row by row, as [np.array([[..], [..], [..]])]. *)
Definition rows3 (r : seq (seq F)) : mat3 :=
  \matrix_(i, j) nth 0 (nth [::] r i) j.

(** [hat]: the left cross-product matrix of the input vector. *)
Definition hat (v : vec3) : mat3 :=
  rows3 [:: [:: 0; - getv v 2; getv v 1];
            [:: getv v 2; 0; - getv v 0];
            [:: - getv v 1; getv v 0; 0]].

(** [sp.linalg.block_diag(A, B)] for two 3x3 blocks. *)
Definition block_diag (A B : mat3) : mat6 := block_mx A 0 0 B.

(** What LAPACK does with a matrix that has no inverse and is not zero: it
    raises when its factorization meets a pivot that is exactly zero and
    returns a matrix otherwise; which of the two happens depends on the
    rounding of the factorization, so it is a parameter of the engine
    ([None] for the raise, [Some] for the matrix returned). *)
Variable lapack_singular : forall n : nat, 'M[F]_n -> option 'M[F]_n.

(** [np.linalg.inv]: the inverse of an invertible matrix; [LinAlgError] on
    the zero matrix, whose first pivot is exactly zero; on the other
    matrices without inverse, what LAPACK does. *)
Definition inv (n : nat) (M : 'M[F]_n) : result 'M[F]_n :=
  if M \in unitmx then Ok (invmx M)
  else if M == 0 then Raise LinAlgError
  else if lapack_singular M is Some Minv then Ok Minv
  else Raise LinAlgError.

(** *** Quaternions (package numpy-quaternion) *)

Record quaternion : Type := Quat { qw : F; qx : F; qy : F; qz : F }.

(** [qt.one] and the zero quaternion of a zero-filled array. *)
Definition qone : quaternion := Quat 1 0 0 0.
Definition qzero : quaternion := Quat 0 0 0 0.

(** The product [a * b] of two quaternions (Hamilton product). *)
Definition qmul (a b : quaternion) : quaternion :=
  Quat (qw a * qw b - qx a * qx b - qy a * qy b - qz a * qz b)
       (qw a * qx b + qx a * qw b + qy a * qz b - qz a * qy b)
       (qw a * qy b - qx a * qz b + qy a * qw b + qz a * qx b)
       (qw a * qz b + qx a * qy b - qy a * qx b + qz a * qw b).

(** [q.norm()]: the sum of the squares of the four components. *)
Definition qnorm2 (a : quaternion) : F :=
  qw a * qw a + qx a * qx a + qy a * qy a + qz a * qz a.

(** The rotation matrix of a quaternion that need not be normalized. *)
Definition rotation_matrix (a : quaternion) : mat3 :=
  let: Quat w x y z := a in
  let n := qnorm2 a in
  rows3
    [:: [:: 1 - 2 * (y * y + z * z) / n; 2 * (x * y - z * w) / n;
            2 * (x * z + y * w) / n];
        [:: 2 * (x * y + z * w) / n; 1 - 2 * (x * x + z * z) / n;
            2 * (y * z - x * w) / n];
        [:: 2 * (x * z - y * w) / n; 2 * (y * z + x * w) / n;
            1 - 2 * (x * x + y * y) / n]].

(** [qt.as_rotation_matrix]: library function, modelled by its contract;
    the zero quaternion has no rotation matrix. *)
Definition as_rotation_matrix (a : quaternion) : result mat3 :=
  if qnorm2 a == 0 then Raise ZeroDivisionError else Ok (rotation_matrix a).

(** *** Poses *)

(** [pose_dtype]: a timestamp ['t'], a position ['p'] and an orientation
    ['q']. *)
Record Pose : Type := mkPose { pose_t : F; pose_p : vec3; pose_q : quaternion }.

(** An element of [np.zeros(_, dtype=pose_dtype)]. *)
Definition pose_zero : Pose := mkPose 0 0 qzero.

(** *** Equations of motion *)

(** [eomB]: rigid body equations of motion in the body frame. *)
Definition eomB (M : mat6) (nu tau : vec6) : result vec6 :=
  let nu1 := usubmx nu in
  let nu2 := dsubmx nu in
  let M11 := ulsubmx M in
  let M12 := ursubmx M in
  let M21 := dlsubmx M in
  let M22 := drsubmx M in
  let C :=
    block_mx 0 (- hat (M11 *m nu1 + M12 *m nu2))
             (- hat (M11 *m nu1 + M12 *m nu2))
             (- hat (M21 *m nu1 + M22 *m nu2)) in
  Minv <- inv M ;;
  Ok (Minv *m (tau - C *m nu)).

(** [eom]: rigid body equations of motion in the fixed frame, closed over
    the body spatial inertia. *)
Definition eom (spatial_inertia_body : mat6) (pose : Pose)
    (vels forces : vec6) : result vec6 :=
  R <- as_rotation_matrix (pose_q pose) ;;
  let RR := block_diag R R in
  let M := RR *m spatial_inertia_body *m RR^T in
  let w := dsubmx vels in
  let nu := vels in
  let tau := forces in
  nud <- eomB M nu tau ;;
  Ok (nud + block_diag (hat w) (hat w) *m vels).

Definition generate_equations_of_motion (spatial_inertia_body : mat6) :
    Pose -> vec6 -> vec6 -> result vec6 :=
  eom spatial_inertia_body.

(** *** Driver *)

(** The three trace buffers [(poses, vels, accs)]. *)
Definition buffers : Type := (seq Pose * seq vec6 * seq vec6)%type.

(** One iteration of the loop of [apply_discrete_eom]: the six arguments
    are read in order (three inputs, then the three slots passed as
    outputs), the step runs, and its outputs land in the three slots. *)
Definition loop_body
    (discrete_eom : Pose -> vec6 -> vec6 -> result (Pose * vec6 * vec6))
    (forces : seq vec6) (n : nat) (bufs : buffers) : result buffers :=
  let: (poses, vels, accs) := bufs in
  pose <- getitem poses n ;;
  vel <- getitem vels n ;;
  force <- getitem forces n ;;
  pose_out <- getitem poses n.+1 ;;
  vels_out <- getitem vels n.+1 ;;
  accs_out <- getitem accs n ;;
  out <- discrete_eom pose vel force ;;
  let: (pose', vels', accs') := out in
  Ok (set_nth pose_out poses n.+1 pose',
      set_nth vels_out vels n.+1 vels',
      set_nth accs_out accs n accs').

(** [apply_discrete_eom]: apply the equations of motion [n_steps] times.
    The number of steps is a natural number: it is the length of the
    allocated arrays and the bound of [range]. *)
Definition apply_discrete_eom (pose0 : Pose) (vels0 : vec6)
    (forces : seq vec6)
    (discrete_eom : Pose -> vec6 -> vec6 -> result (Pose * vec6 * vec6))
    (n_steps : nat) : result buffers :=
  let poses := nseq n_steps.+1 pose_zero in
  let vels := nseq n_steps.+1 (0 : vec6) in
  let accs := nseq n_steps (0 : vec6) in
  let poses := set_nth pose_zero poses 0 pose0 in
  let vels := set_nth 0 vels 0 vels0 in
  for_range (loop_body discrete_eom forces) (iota 0 n_steps)
            (poses, vels, accs).

(** *** Point transform of a spatial inertia matrix *)

(** Equation (eq:transform2) of the derivation: the matrix about [P] from
    the matrix [A] about [Q], with [r] the displacement from [P] to [Q]. *)
Definition transform_spatial_inertia (A : mat6) (r : vec3) : mat6 :=
  let A11 := ulsubmx A in
  let A12 := ursubmx A in
  let A21 := dlsubmx A in
  A + block_mx 0 (- (A11 *m hat r))
               (hat r *m A11)
               (- (hat r *m A11 *m hat r) + hat r *m A12 - A21 *m hat r).

(** The velocity of the point [Q] from the one of [P] (equation eq:pq). *)
Definition velocity_at_Q (r vP w : vec3) : vec3 := vP - hat r *m w.

(** The quadratic form of the kinetic energy, without its factor 1/2. *)
Definition quadratic_form (A : mat6) (v w : vec3) : 'M[F]_1 :=
  (col_mx v w)^T *m A *m col_mx v w.

End Engine.

(** ** The integration step *)

Section Integration.

Variable F : realFieldType.

Notation vec6 := 'cV[F]_(3 + 3).

(** The floating-point functions of the mathematics library. *)
Variables (sqrt cos sin : F -> F).

(** [_QUATERNION_EPS] of the quaternion library, [1e-14]. *)
Definition quaternion_eps : F := locked ((10%:R ^+ 14)^-1).

(** [qt.from_rotation_vector]: library function, the exponential of the
    quaternion [(0, phi / 2)].  With [vnorm] the length of [phi / 2], the
    library returns [(cos vnorm, (sin vnorm / vnorm) . phi / 2)] when
    [vnorm > _QUATERNION_EPS] and [(1, 0, 0, 0)] otherwise; the test is
    written on the squares, which is the same for the square root of the
    real numbers. *)
Definition from_rotation_vector (phi : 'cV[F]_3) : quaternion F :=
  let x := getv phi 0 / 2 in
  let y := getv phi 1 / 2 in
  let z := getv phi 2 / 2 in
  let norm2 := x * x + y * y + z * z in
  if quaternion_eps ^+ 2 < norm2 then
    let vnorm := sqrt norm2 in
    let s := sin vnorm / vnorm in
    Quat (cos vnorm) (s * x) (s * y) (s * z)
  else Quat 1 0 0 0.

(** [discrete_eom]: the three written outputs [(pose_out, vels_out,
    accs_out)], in the order of the assignments of the notebook. *)
Definition discrete_eom (eom : Pose F -> vec6 -> vec6 -> result vec6) (dt : F)
    (pose : Pose F) (vels forces : vec6) : result (Pose F * vec6 * vec6) :=
  accs_out <- eom pose vels forces ;;
  let vels_out := vels + dt *: accs_out in
  let t_out := pose_t pose + dt in
  let p_out := pose_p pose + dt *: usubmx vels_out in
  let q_out :=
    qmul (from_rotation_vector (dt *: dsubmx vels_out)) (pose_q pose) in
  Ok (mkPose t_out p_out q_out, vels_out, accs_out).

Definition generate_discrete_eom (eom : Pose F -> vec6 -> vec6 -> result vec6)
    (dt : F) : Pose F -> vec6 -> vec6 -> result (Pose F * vec6 * vec6) :=
  discrete_eom eom dt.

End Integration.

(** ** Auxiliary definitions used by the proofs *)

Section Auxiliary.

Variable F : fieldType.

(** The matrix that maps the generalized velocity at [P] to the one at [Q]:
    [(v_Q; w) = velocity_shift r *m (v_P; w)]. *)
Definition velocity_shift (r : 'cV[F]_3) : 'M[F]_(3 + 3) :=
  block_mx 1%:M (- hat r) 0 1%:M.

(** The specification's reading of the dynamics, to compare with [eom]:
    the fixed-frame inertia [blockdiag(R, R) . M_body . blockdiag(R, R)^T]
    for the rotation matrix [R] of the orientation, *)
Definition spec_fixed_inertia (M_body : 'M[F]_(3 + 3)) (a : quaternion F) :
    'M[F]_(3 + 3) :=
  let R := rotation_matrix a in
  block_mx R 0 0 R *m M_body *m (block_mx R 0 0 R)^T.

(** the Coriolis matrix [C(nu)] of an inertia [M], *)
Definition spec_coriolis (M : 'M[F]_(3 + 3)) (nu : 'cV[F]_(3 + 3)) :
    'M[F]_(3 + 3) :=
  let p1 := ulsubmx M *m usubmx nu + ursubmx M *m dsubmx nu in
  let p2 := dlsubmx M *m usubmx nu + drsubmx M *m dsubmx nu in
  block_mx 0 (- hat p1) (- hat p1) (- hat p2).

(** and the returned acceleration
    [M^-1 . (tau - C(nu) . nu) + blockdiag(hat(w), hat(w)) . nu]. *)
Definition spec_acceleration (M_body : 'M[F]_(3 + 3)) (a : quaternion F)
    (nu tau : 'cV[F]_(3 + 3)) : 'cV[F]_(3 + 3) :=
  let M := spec_fixed_inertia M_body a in
  let w := dsubmx nu in
  invmx M *m (tau - spec_coriolis M nu *m nu)
  + block_mx (hat w) 0 0 (hat w) *m nu.

(** The loop of [apply_discrete_eom] read as a recursion: [m] steps from
    the state [(pose, vel)], consuming the forces from index [k] on, and
    returning the poses, velocities and accelerations the steps produce. *)
Fixpoint trajectory
    (step : Pose F -> 'cV[F]_(3 + 3) -> 'cV[F]_(3 + 3) ->
            result (Pose F * 'cV[F]_(3 + 3) * 'cV[F]_(3 + 3)))
    (forces : seq 'cV[F]_(3 + 3)) (k m : nat)
    (pose : Pose F) (vel : 'cV[F]_(3 + 3)) : result (buffers F) :=
  if m is m'.+1 then
    force <- getitem forces k ;;
    out <- step pose vel force ;;
    tr <- trajectory step forces k.+1 m' out.1.1 out.1.2 ;;
    Ok (out.1.1 :: tr.1.1, out.1.2 :: tr.1.2, out.2 :: tr.2)
  else Ok ([::], [::], [::]).

(** The conjugate of a quaternion, and the rotation of a vector [v] by a
    quaternion [a]: the vector part of [a (0, v) a* / |a|^2]. *)
Definition qconj (a : quaternion F) : quaternion F :=
  Quat (qw a) (- qx a) (- qy a) (- qz a).

Definition rotate (a : quaternion F) (v : 'cV[F]_3) : 'cV[F]_3 :=
  let r := qmul (qmul a (Quat 0 (getv v 0) (getv v 1) (getv v 2))) (qconj a) in
  \col_i nth 0 [:: qx r / qnorm2 a; qy r / qnorm2 a; qz r / qnorm2 a] i.

(** The traces of a run, with the initial state in front. *)
Definition with_initial_state (pose0 : Pose F) (vels0 : 'cV[F]_(3 + 3))
    (tr : buffers F) : buffers F :=
  (pose0 :: tr.1.1, vels0 :: tr.1.2, tr.2).

End Auxiliary.

(** ** Further definitions read off the sources *)

Section Further.

Variable F : fieldType.

(** The cross product of two 3-element vectors, the operation [hat] is the
    matrix of. *)
Definition cross (v w : 'cV[F]_3) : 'cV[F]_3 :=
  \col_i nth 0 [:: getv v 1 * getv w 2 - getv v 2 * getv w 1;
                   getv v 2 * getv w 0 - getv v 0 * getv w 2;
                   getv v 0 * getv w 1 - getv v 1 * getv w 0] i.

(** Equation (eq:transform1) of the derivation: the transformed matrix
    written block by block. *)
Definition transform_spatial_inertia_blocks (A : 'M[F]_(3 + 3))
    (r : 'cV[F]_3) : 'M[F]_(3 + 3) :=
  let A11 := ulsubmx A in
  let A12 := ursubmx A in
  let A21 := dlsubmx A in
  let A22 := drsubmx A in
  block_mx A11 (- (A11 *m hat r) + A12)
           (hat r *m A11 + A21)
           (- (hat r *m A11 *m hat r) + hat r *m A12 - A21 *m hat r + A22).

(** The expansion (eq:left-side) of the quadratic form of a matrix, without
    its factor 1/2. *)
Definition quadratic_form_blocks (A : 'M[F]_(3 + 3)) (v w : 'cV[F]_3) :
    'M[F]_1 :=
  v^T *m ulsubmx A *m v + v^T *m ursubmx A *m w
  + w^T *m dlsubmx A *m v + w^T *m drsubmx A *m w.

(** The spatial inertia of a rigid body of mass [m] and tensor of inertia
    [J] about its center of mass. *)
Definition rigid_body_inertia (m : F) (J : 'M[F]_3) : 'M[F]_(3 + 3) :=
  block_mx (m%:M) 0 0 J.

End Further.

(** ** The traces of a uniform motion *)

Section UniformMotion.

Variable F : fieldType.

(** The traces of [n] steps of time step [dt] from the pose [pose], when
    the velocity stays [vel], every step turns the orientation by the
    quaternion [turn] and nothing accelerates. *)
Definition uniform_traces (dt : F) (turn : quaternion F) (pose : Pose F)
    (vel : 'cV[F]_(3 + 3)) (n : nat) : buffers F :=
  ([seq mkPose (pose_t pose + dt *+ i)
               (pose_p pose + (dt *: usubmx vel) *+ i)
               (iter i (qmul turn) (pose_q pose))
   | i <- iota 0 n.+1],
   nseq n.+1 vel, nseq n 0).

End UniformMotion.

(** ** A worked configuration *)

Section WorkedConfiguration.

Variable F : fieldType.

(** A 3-element vector and a diagonal 3x3 matrix given by their entries. *)
Definition col3 (a b c : F) : 'cV[F]_3 := \col_i nth 0 [:: a; b; c] i.

Definition diag3 (a b c : F) : 'M[F]_3 :=
  rows3 [:: [:: a; 0; 0]; [:: 0; b; 0]; [:: 0; 0; c]].

(** The quaternion [(1, 1, 0, 0)], not normalized: a quarter turn about the
    first axis; a pose with this orientation. *)
Definition quarter_turn : quaternion F := Quat 1 1 0 0.
Definition quarter_pose : Pose F := mkPose 1 (col3 1 1 1) quarter_turn.

(** The body inertia [diag(1, 2, 3, 1, 1, 1)], a velocity whose linear and
    angular parts are not parallel, and a force. *)
Definition diagonal_inertia : 'M[F]_(3 + 3) :=
  block_mx (diag3 1 2%:R 3%:R) 0 0 1%:M.

Definition shear_velocity : 'cV[F]_(3 + 3) :=
  col_mx (col3 1 1 1) (col3 0 0 1).

Definition unit_force : 'cV[F]_(3 + 3) := col_mx (col3 1 1 1) (col3 1 1 1).

End WorkedConfiguration.

(** ** The integration step in the words of the specification *)

Section SpecIntegration.

Variable F : realFieldType.
Variables (sqrt cos sin : F -> F).

(** The square of the half length [|phi| / 2] of a rotation vector. *)
Definition half_norm2 (phi : 'cV[F]_3) : F :=
  (getv phi 0 ^+ 2 + getv phi 1 ^+ 2 + getv phi 2 ^+ 2) / 4%:R.

(** The exponential map of the rotation vectors: the identity quaternion
    for the zero vector and, with [n] the half length of [phi],
    [(cos n, sin n . phi / |phi|)] for every other one. *)
Definition exact_exponential (phi : 'cV[F]_3) : quaternion F :=
  let n := sqrt (half_norm2 phi) in
  if phi == 0 then Quat 1 0 0 0
  else Quat (cos n) (sin n * getv phi 0 / (2%:R * n))
            (sin n * getv phi 1 / (2%:R * n)) (sin n * getv phi 2 / (2%:R * n)).

(** The exponential map with the threshold of the library: the quaternion
    [(cos n, sin n . phi / |phi|)] when the half length [n] of [phi] exceeds
    [quaternion_eps], and the identity quaternion otherwise, in particular
    for the zero vector. *)
Definition spec_exponential (phi : 'cV[F]_3) : quaternion F :=
  let n := sqrt (half_norm2 phi) in
  if quaternion_eps F ^+ 2 < half_norm2 phi then
    Quat (cos n) (sin n * getv phi 0 / (2%:R * n))
         (sin n * getv phi 1 / (2%:R * n)) (sin n * getv phi 2 / (2%:R * n))
  else Quat 1 0 0 0.

(** One step from [(pose, vel)] under the acceleration [accel]: velocity
    first, then time, position from the new velocity, and orientation by
    the rotation of the new angular velocity composed on the left. *)
Definition spec_step (dt : F) (pose : Pose F)
    (vel accel : 'cV[F]_(3 + 3)) : Pose F * 'cV[F]_(3 + 3) * 'cV[F]_(3 + 3) :=
  let vel_next := vel + dt *: accel in
  let time_next := pose_t pose + dt in
  let pos_next := pose_p pose + dt *: usubmx vel_next in
  let e := spec_exponential (dt *: dsubmx vel_next) in
  let q := pose_q pose in
  let orient_next :=
    Quat (qw e * qw q - qx e * qx q - qy e * qy q - qz e * qz q)
         (qw e * qx q + qx e * qw q + qy e * qz q - qz e * qy q)
         (qw e * qy q - qx e * qz q + qy e * qw q + qz e * qx q)
         (qw e * qz q + qx e * qy q - qy e * qx q + qz e * qw q) in
  (mkPose time_next pos_next orient_next, vel_next, accel).

(** The rotation vector [(1e-14, 0, 0)]. *)
Definition tiny_rotation : 'cV[F]_3 :=
  \col_i nth 0 [:: quaternion_eps F; 0; 0] i.

End SpecIntegration.

(** ** A concrete configuration on rational scalars *)

Section RationalConfiguration.

(** A stand-in for LAPACK on the matrices without inverse that are not
    zero: rounding hides the singularity and a matrix is returned, the
    inverse of a perturbation of the input. *)
Definition lapack_returns (n : nat) (M : 'M[rat]_n) : option 'M[rat]_n :=
  Some (invmx (M + (1 / 1000%:R)%:M)).

(** Rational stand-ins for the library's [sqrt], [cos] and [sin]: one
    Newton iteration from 1, and Taylor polynomials at 0. *)
Definition newton_sqrt (x : rat) : rat := (1 + x) / 2.
Definition taylor_cos (x : rat) : rat := 1 - x * x / 2.
Definition taylor_sin (x : rat) : rat := x - x * x * x / 6.

(** The time step of the notebook, [1e-3]. *)
Definition millisecond : rat := 1 / 1000%:R.

(** The initial pose of the notebook, and a pose with the same orientation
    at another place and time. *)
Definition rest_pose : Pose rat := mkPose 0 0 (qone rat).
Definition far_pose : Pose rat := mkPose 1 (const_mx 1) (qone rat).

(** The integrator of the notebook (identity inertia), and the one of a
    singular inertia (the zero matrix). *)
Definition unit_integrator :
    Pose rat -> 'cV[rat]_(3 + 3) -> 'cV[rat]_(3 + 3) ->
    result (Pose rat * 'cV[rat]_(3 + 3) * 'cV[rat]_(3 + 3)) :=
  generate_discrete_eom newton_sqrt taylor_cos taylor_sin
    (generate_equations_of_motion lapack_returns 1%:M) millisecond.

Definition singular_integrator :
    Pose rat -> 'cV[rat]_(3 + 3) -> 'cV[rat]_(3 + 3) ->
    result (Pose rat * 'cV[rat]_(3 + 3) * 'cV[rat]_(3 + 3)) :=
  generate_discrete_eom newton_sqrt taylor_cos taylor_sin
    (generate_equations_of_motion lapack_returns 0) millisecond.

End RationalConfiguration.

(** ** More concrete values on rational scalars *)

Section RationalValues.

(** A velocity with a linear part only, and a displacement. *)
Definition drift_velocity : 'cV[rat]_(3 + 3) := col_mx (const_mx 1) 0.
Definition unit_displacement : 'cV[rat]_3 := const_mx 1.

(** The integrator of a body of isotropic inertia [2 . I]. *)
Definition heavy_integrator :
    Pose rat -> 'cV[rat]_(3 + 3) -> 'cV[rat]_(3 + 3) ->
    result (Pose rat * 'cV[rat]_(3 + 3) * 'cV[rat]_(3 + 3)) :=
  generate_discrete_eom newton_sqrt taylor_cos taylor_sin
    (generate_equations_of_motion lapack_returns (2%:R)%:M) millisecond.

(** The rotation of one step at zero angular velocity, and the traces of
    the body at rest. *)
Definition rest_turn : quaternion rat :=
  from_rotation_vector newton_sqrt taylor_cos taylor_sin
    (millisecond *: dsubmx (0 : 'cV[rat]_(3 + 3))).

Definition rest_traces (n : nat) : buffers rat :=
  uniform_traces millisecond rest_turn rest_pose 0 n.

(** A pose with the orientation [(1, 2, 3, 4)], not normalized. *)
Definition tilted_pose : Pose rat := mkPose 1 (const_mx 1) (Quat 1 2 3 4).

(** An inertia that is invertible and not symmetric, and the inertia
    [diag(1, 1, 1, 1, 1, 0)] of rank 5. *)
Definition skew_inertia : 'M[rat]_(3 + 3) :=
  block_mx 1%:M (const_mx 1) 0 (2%:R)%:M.

Definition rank5_inertia : 'M[rat]_(3 + 3) :=
  block_mx 1%:M 0 0 (rows3 [:: [:: 1; 0; 0]; [:: 0; 1; 0]; [:: 0; 0; 0]]).

(** A velocity and a force with all their components equal to 1, a time
    step of 2, and the integrator of the identity inertia with it. *)
Definition spin_velocity : 'cV[rat]_(3 + 3) := const_mx 1.
Definition push_force : 'cV[rat]_(3 + 3) := const_mx 1.
Definition two_seconds : rat := 2%:R.

End RationalValues.

(** * Properties *)

(** ** The skew operator and the rotation matrix *)

Section SkewTheory.

Variable F : fieldType.

Implicit Types (v r : 'cV[F]_3) (a : quaternion F).

Lemma getvN v k : getv (- v) k = - getv v k.
Proof. by rewrite /getv; case: insub => [i|]; rewrite ?mxE ?oppr0. Qed.

Lemma getv0 k : getv (0 : 'cV[F]_3) k = 0.
Proof. by rewrite /getv; case: insub => [i|]; rewrite ?mxE. Qed.

(** Case analysis on the nine entries of a 3x3 array given by rows. *)
Ltac entries3 i j :=
  apply/matrixP => i j; rewrite !mxE;
  case: i => [[|[|[|?]]] ?] //; case: j => [[|[|[|?]]] ?] //=.

Lemma hat_tr v : (hat v)^T = - hat v.
Proof. by entries3 i j; rewrite ?oppr0 ?opprK. Qed.

Lemma hatN v : hat (- v) = - hat v.
Proof. by entries3 i j; rewrite ?getvN ?oppr0 ?opprK. Qed.

Lemma hat0 : hat (0 : 'cV[F]_3) = 0.
Proof. by entries3 i j; rewrite ?getv0 ?oppr0. Qed.

(** The rotation matrix of a quaternion of nonzero norm is orthogonal. *)
Lemma rotation_matrix_orthogonal a :
  qnorm2 a != 0 -> rotation_matrix a *m (rotation_matrix a)^T = 1%:M.
Proof.
case: a => w x y z; rewrite /qnorm2 /= => n_neq0.
apply/matrixP => i j; rewrite !mxE !big_ord_recr big_ord0 /= !mxE /=.
case: i => [[|[|[|?]]] ?] //; case: j => [[|[|[|?]]] ?] //=;
  rewrite /qnorm2 /=; by field.
Qed.

Lemma rotation_matrix_unit a :
  qnorm2 a != 0 -> rotation_matrix a \in unitmx.
Proof. by move/rotation_matrix_orthogonal/mulmx1_unit => []. Qed.

Lemma block_diag_tr (A B : 'M[F]_3) :
  (block_diag A B)^T = block_diag A^T B^T.
Proof. by rewrite /block_diag tr_block_mx !trmx0. Qed.

Lemma block_diag_mul (A B A' B' : 'M[F]_3) :
  block_diag A B *m block_diag A' B' = block_diag (A *m A') (B *m B').
Proof.
by rewrite /block_diag mulmx_block !mulmx0 !mul0mx !addr0 !add0r.
Qed.

Lemma block_diag_unit (A : 'M[F]_3) :
  A \in unitmx -> block_diag A A \in unitmx.
Proof.
move=> A_unit.
have /mulmx1_unit[] // :
  block_diag A A *m block_diag (invmx A) (invmx A) = 1%:M.
by rewrite block_diag_mul mulmxV // /block_diag -scalar_mx_block.
Qed.

(** The fixed-frame inertia is invertible exactly when the body one is. *)
Lemma frame_rotation_unit (R : 'M[F]_3) (M_body : 'M[F]_(3 + 3)) :
  R \in unitmx ->
  (block_diag R R *m M_body *m (block_diag R R)^T \in unitmx)
  = (M_body \in unitmx).
Proof.
move=> R_unit.
by rewrite !unitmx_mul unitmx_tr block_diag_unit // andbT.
Qed.

End SkewTheory.

(** ** The point transform *)

Section TransformTheory.

Variable F : fieldType.

Implicit Types (A : 'M[F]_(3 + 3)) (r v w : 'cV[F]_3).

(** The transform is the congruence by the velocity shift. *)
Lemma transform_congruence A r :
  transform_spatial_inertia A r
  = (velocity_shift r)^T *m A *m velocity_shift r.
Proof.
rewrite /transform_spatial_inertia /velocity_shift.
move: (submxK A).
move: (ulsubmx A) (ursubmx A) (dlsubmx A) (drsubmx A) => A11 A12 A21 A22 <-.
rewrite tr_block_mx !trmx1 trmx0 linearN /= hat_tr opprK.
rewrite !mulmx_block add_block_mx.
rewrite !mul1mx !mulmx1 !mul0mx !mulmx0 !addr0.
congr block_mx.
- by rewrite mulmxN addrC.
- by rewrite addrC.
- rewrite mulmxDl !mulmxN [LHS]addrC [RHS]addrA.
  by congr (_ + _); rewrite addrAC.
Qed.

(** A zero displacement leaves the matrix as it is. *)
Lemma transform_zero_displacement A : transform_spatial_inertia A 0 = A.
Proof.
rewrite transform_congruence /velocity_shift hat0 oppr0 -scalar_mx_block.
by rewrite trmx1 mul1mx mulmx1.
Qed.

Lemma velocity_shift_col r v w :
  col_mx (velocity_at_Q r v w) w = velocity_shift r *m col_mx v w.
Proof.
rewrite /velocity_shift /velocity_at_Q mul_block_col.
by rewrite !mul1mx mul0mx add0r mulNmx.
Qed.

Lemma velocity_shiftK r : velocity_shift r *m velocity_shift (- r) = 1%:M.
Proof.
rewrite /velocity_shift hatN opprK mulmx_block.
rewrite !mul1mx !mulmx1 !mul0mx !mulmx0 !addr0 add0r subrr.
by rewrite -scalar_mx_block.
Qed.

(** C4: the point transform preserves the quadratic form of the kinetic
    energy: the form of the transformed matrix at [(v_P; w)] equals the form
    of the original matrix at [(v_Q; w)] with [v_Q = v_P - hat(r) . w], for
    every 6x6 matrix, without symmetry, definiteness or invertibility. *)
Theorem transform_preserves_kinetic_energy A r v w :
  quadratic_form (transform_spatial_inertia A r) v w
  = quadratic_form A (velocity_at_Q r v w) w.
Proof.
rewrite /quadratic_form velocity_shift_col transform_congruence.
by rewrite trmx_mul !mulmxA.
Qed.

(** C5: transforming with [r] and then with [- r] gives back the original
    matrix, exactly, for every 6x6 matrix and every displacement. *)
Theorem transform_round_trip A r :
  transform_spatial_inertia (transform_spatial_inertia A r) (- r) = A.
Proof.
rewrite !transform_congruence !mulmxA -trmx_mul.
rewrite -[_ *m A *m _ *m _]mulmxA velocity_shiftK.
by rewrite trmx1 mul1mx mulmx1.
Qed.

End TransformTheory.

(** ** The equations of motion *)

Section DynamicsTheory.

Variable F : fieldType.

Variable lapack : forall n : nat, 'M[F]_n -> option 'M[F]_n.

Notation inv := (inv lapack).
Notation eomB := (eomB lapack).
Notation eom := (eom lapack).
Notation generate_equations_of_motion := (generate_equations_of_motion lapack).

Implicit Types (M_body : 'M[F]_(3 + 3)) (pose : Pose F).
Implicit Types (nu tau vels forces : 'cV[F]_(3 + 3)).

Lemma as_rotation_matrix_ok (a : quaternion F) :
  qnorm2 a != 0 -> as_rotation_matrix a = Ok (rotation_matrix a).
Proof. by rewrite /as_rotation_matrix => /negPf->. Qed.

Lemma spec_fixed_inertia_unit M_body (a : quaternion F) :
  qnorm2 a != 0 ->
  (spec_fixed_inertia M_body a \in unitmx) = (M_body \in unitmx).
Proof.
by move=> a_neq0; rewrite [LHS]frame_rotation_unit // rotation_matrix_unit.
Qed.

Lemma inv_unit n (M : 'M[F]_n) : M \in unitmx -> inv M = Ok (invmx M).
Proof. by rewrite /inv => ->. Qed.

Lemma inv_zero : inv (0 : 'M[F]_(3 + 3)) = Raise LinAlgError.
Proof. by rewrite /inv unitmxE det0 unitr0 eqxx. Qed.

(** [eom] once the rotation matrix exists: the inversion of the fixed-frame
    inertia, then the formula on the matrix it returns. *)
Lemma eom_unfold M_body pose nu tau :
  qnorm2 (pose_q pose) != 0 ->
  eom M_body pose nu tau
  = Minv <- inv (spec_fixed_inertia M_body (pose_q pose)) ;;
    Ok (Minv *m (tau - spec_coriolis
                         (spec_fixed_inertia M_body (pose_q pose)) nu *m nu)
        + block_mx (hat (dsubmx nu)) 0 0 (hat (dsubmx nu)) *m nu).
Proof.
move=> q_neq0; rewrite /eom as_rotation_matrix_ok //= /eomB.
by rewrite -/(spec_fixed_inertia M_body (pose_q pose)); case: inv.
Qed.

(** With an invertible inertia it is the specification's formula. *)
Lemma eom_unit M_body pose nu tau :
  M_body \in unitmx -> qnorm2 (pose_q pose) != 0 ->
  generate_equations_of_motion M_body pose nu tau
  = Ok (spec_acceleration M_body (pose_q pose) nu tau).
Proof.
move=> M_unit q_neq0; rewrite /generate_equations_of_motion eom_unfold //.
by rewrite inv_unit // spec_fixed_inertia_unit.
Qed.

Lemma spec_fixed_inertia_eq0 M_body (a : quaternion F) :
  qnorm2 a != 0 -> (spec_fixed_inertia M_body a == 0) = (M_body == 0).
Proof.
move=> /rotation_matrix_unit/block_diag_unit RR_unit.
have RRt_unit : (block_diag (rotation_matrix a) (rotation_matrix a))^T
                \in unitmx by rewrite unitmx_tr.
rewrite /spec_fixed_inertia -/(block_diag _ _).
move: (block_diag _ _) RR_unit RRt_unit => RR RR_unit RRt_unit.
apply/eqP/eqP => [M0|->]; last by rewrite mulmx0 mul0mx.
have /= := congr1 (fun X => invmx RR *m X *m invmx RR^T) M0.
by rewrite !mulmxA mulVmx // mul1mx mulmxK // mulmx0 mul0mx.
Qed.

(** Without an inverse, the zero inertia raises and any other inertia
    leaves the outcome to LAPACK. *)
Lemma eom_no_inverse M_body pose nu tau :
  M_body \notin unitmx -> qnorm2 (pose_q pose) != 0 ->
  generate_equations_of_motion M_body pose nu tau
  = if M_body == 0 then Raise LinAlgError
    else if lapack (spec_fixed_inertia M_body (pose_q pose)) is Some Minv
    then Ok (Minv *m (tau - spec_coriolis
                             (spec_fixed_inertia M_body (pose_q pose)) nu
                           *m nu)
             + block_mx (hat (dsubmx nu)) 0 0 (hat (dsubmx nu)) *m nu)
    else Raise LinAlgError.
Proof.
move=> /negPf M_sing q_neq0; rewrite /generate_equations_of_motion.
rewrite eom_unfold // /inv spec_fixed_inertia_unit // M_sing.
rewrite spec_fixed_inertia_eq0 //; case: ifP => // _.
by case: lapack.
Qed.

Lemma eom_zero_inertia pose nu tau :
  qnorm2 (pose_q pose) != 0 ->
  generate_equations_of_motion 0 pose nu tau = Raise LinAlgError.
Proof.
move=> q_neq0; rewrite eom_no_inverse ?eqxx //.
by rewrite unitmxE det0 unitr0.
Qed.

Lemma det0_singular M_body : \det M_body = 0 -> M_body \notin unitmx.
Proof. by move=> det0; rewrite unitmxE det0 unitr0. Qed.

(** C10: the acceleration depends on the pose only through its orientation:
    two poses with the same orientation, whatever their positions and
    timestamps, give the same result for the same velocity and force. *)
Theorem eom_depends_on_orientation_only M_body pose1 pose2 nu tau :
  pose_q pose1 = pose_q pose2 ->
  generate_equations_of_motion M_body pose1 nu tau
  = generate_equations_of_motion M_body pose2 nu tau.
Proof. by rewrite /generate_equations_of_motion /eom => ->. Qed.

End DynamicsTheory.

(** ** Arrays *)

Section ArrayTheory.

Local Open Scope nat_scope.

Variable T : Type.

Implicit Types (s t : seq T) (x y : T) (n : nat).

Lemma getitem_cat_head s x t n :
  size s = n -> getitem (s ++ x :: t) n = Ok x.
Proof. by move=> <-; rewrite /getitem drop_size_cat. Qed.

Lemma getitem_rcons_cat s x t n :
  size s = n -> getitem (rcons s x ++ t) n = Ok x.
Proof. by move=> sz; rewrite cat_rcons getitem_cat_head. Qed.

Lemma set_nth_cat_head s x t n d y :
  size s = n -> set_nth d (s ++ x :: t) n y = rcons s y ++ t.
Proof.
move=> <-; rewrite cat_rcons.
by elim: s => [|z s IHs] //=; rewrite IHs.
Qed.

Lemma getitem_nth d s n : n < size s -> getitem s n = Ok (nth d s n).
Proof. by move=> lt_n; rewrite /getitem (drop_nth d). Qed.

Lemma getitem_oversize s n : size s <= n -> getitem s n = Raise IndexError.
Proof. by move=> le_n; rewrite /getitem drop_oversize. Qed.

Lemma getitem_take s n i : i < n -> getitem (take n s) i = getitem s i.
Proof.
move=> lt_in; case: (ltnP i (size s)) => [lt_is|le_si]; last first.
  rewrite !getitem_oversize //.
  by rewrite (leq_trans _ le_si) // size_take_min geq_minr.
case: s lt_is => [|d s] // lt_is.
rewrite (getitem_nth d) ?(getitem_nth d) ?nth_take //.
by rewrite size_take_min leq_min lt_in.
Qed.

End ArrayTheory.

(** ** The driver *)

Section DriverTheory.

Local Open Scope nat_scope.

Variable F : fieldType.

Notation vec6 := 'cV[F]_(3 + 3).
Notation step_fn := (Pose F -> vec6 -> vec6 -> result (Pose F * vec6 * vec6)).

Implicit Types (step : step_fn) (forces vels accs : seq vec6).
Implicit Types (poses : seq (Pose F)) (pose : Pose F) (vel : vec6).

(** The loop invariant: after [k] iterations the buffers hold the [k + 1]
    states reached so far, followed by the zeros of the allocation, and the
    remaining [m] iterations extend them by a trajectory. *)
Lemma loop_trajectory step forces m k poses vels accs pose vel :
  size poses = k -> size vels = k -> size accs = k ->
  for_range (loop_body step forces) (iota k m)
    (rcons poses pose ++ nseq m (pose_zero F),
     rcons vels vel ++ nseq m 0%R, accs ++ nseq m 0%R)
  = tr <- trajectory step forces k m pose vel ;;
    Ok (rcons poses pose ++ tr.1.1, rcons vels vel ++ tr.1.2, accs ++ tr.2).
Proof.
elim: m k poses vels accs pose vel => [|m IHm] k poses vels accs pose vel.
  by rewrite /= !cats0.
move=> sz_poses sz_vels sz_accs /=.
have sz_poses' : size (rcons poses pose) = k.+1 by rewrite size_rcons sz_poses.
have sz_vels' : size (rcons vels vel) = k.+1 by rewrite size_rcons sz_vels.
rewrite (getitem_rcons_cat _ _ sz_poses) (getitem_rcons_cat _ _ sz_vels) /=.
case: (getitem forces k) => [force|e] //=.
rewrite (getitem_cat_head _ _ sz_poses') (getitem_cat_head _ _ sz_vels') /=.
rewrite (getitem_cat_head _ _ sz_accs) /=.
case: (step pose vel force) => [[[pose' vel'] acc]|e] //=.
rewrite (set_nth_cat_head _ _ _ _ sz_poses') (set_nth_cat_head _ _ _ _ sz_vels').
rewrite (set_nth_cat_head _ _ _ _ sz_accs) IHm ?size_rcons ?sz_poses ?sz_vels ?sz_accs //.
by case: trajectory => [[[ps vs] acs]|e] //=; rewrite !cat_rcons.
Qed.

(** The driver returns the trajectory from the initial state, prefixed by
    that state. *)
Lemma apply_trajectory pose0 (vels0 : vec6) forces step n_steps :
  apply_discrete_eom pose0 vels0 forces step n_steps
  = tr <- trajectory step forces 0 n_steps pose0 vels0 ;;
    Ok (with_initial_state pose0 vels0 tr).
Proof.
rewrite /apply_discrete_eom /=.
have := @loop_trajectory step forces n_steps 0 [::] [::] [::] pose0 vels0.
by move=> /= ->.
Qed.

(** A step that raises ends the run with its exception. *)
Lemma trajectory_raise step forces k m pose vel force e :
  getitem forces k = Ok force -> step pose vel force = Raise e ->
  trajectory step forces k m.+1 pose vel = Raise e.
Proof. by move=> /= -> /= ->. Qed.

(** A trajectory is determined step by step: its lists have one entry per
    step, and each entry is the output of the step function on the previous
    state and the force of that index. *)
Lemma trajectoryP step forces m k pose vel ps (vs acs : seq vec6) :
  k + m <= size forces ->
  trajectory step forces k m pose vel = Ok (ps, vs, acs) <->
  [/\ size ps = m, size vs = m, size acs = m &
      forall i, i < m ->
        step (nth (pose_zero F) (pose :: ps) i) (nth 0%R (vel :: vs) i)
             (nth 0%R forces (k + i))
        = Ok (nth (pose_zero F) ps i, nth 0%R vs i, nth 0%R acs i)].
Proof.
elim: m k pose vel ps vs acs => [|m IHm] k pose vel ps vs acs le_km.
  split=> [[<- <- <-]|[/size0nil-> /size0nil-> /size0nil-> _]] //.
have lt_k : k < size forces.
  by rewrite (leq_trans _ le_km) // -(addSnnS k m) leq_addr.
have le_km' : k.+1 + m <= size forces by rewrite (addSnnS k m).
rewrite /= (getitem_nth 0%R) //=; split.
  case Estep: (step _ _ _) => [[[pose' vel'] acc]|e] //=.
  case Etr: trajectory => [[[ps' vs'] acs']|e] //= [<- <- <-].
  have [sz_ps sz_vs sz_acs rel] := (IHm _ _ _ _ _ _ le_km').1 Etr.
  split; rewrite /= ?sz_ps ?sz_vs ?sz_acs // => -[_|i lt_i] /=.
    by rewrite addn0.
  by rewrite -(addSnnS k i); apply: rel.
case: ps vs acs => [|pose' ps] [|vel' vs] [|acc acs] [] //= [sz_ps] [sz_vs].
move=> [sz_acs] rel.
have /= := rel 0 isT; rewrite addn0 => -> /=.
have -> /= : trajectory step forces k.+1 m pose' vel' = Ok (ps, vs, acs).
  apply/(IHm _ _ _ _ _ _ le_km'); split=> // i lt_i.
  by have /= := rel i.+1 lt_i; rewrite -(addSnnS k i).
by [].
Qed.

(** Past the end of the forces the trajectory stops with [IndexError],
    after the steps that had a force. *)
Lemma trajectory_short step forces j m k pose vel :
  k + j = size forces -> j < m ->
  trajectory step forces k m pose vel
  = _ <- trajectory step forces k j pose vel ;; Raise IndexError.
Proof.
elim: j m k pose vel => [|j IHj] [|m] k pose vel //= sz_forces lt_jm.
  by rewrite getitem_oversize // -sz_forces addn0.
case: (getitem forces k) => [force|e] //=.
case: (step pose vel force) => [[[pose' vel'] acc]|e] //=.
have sz_forces' : k.+1 + j = size forces by rewrite (addSnnS k j).
by rewrite (IHj m _ _ _ sz_forces') //; case: trajectory.
Qed.

(** Only the forces of the indices the steps read matter. *)
Lemma trajectory_take step forces n m k pose vel :
  k + m <= n ->
  trajectory step (take n forces) k m pose vel
  = trajectory step forces k m pose vel.
Proof.
elim: m k pose vel => [|m IHm] k pose vel //= le_kmn.
have lt_kn : k < n by rewrite (leq_trans _ le_kmn) // -(addSnnS k m) leq_addr.
have le_kmn' : k.+1 + m <= n by rewrite (addSnnS k m).
rewrite (getitem_take _ lt_kn).
case: (getitem forces k) => [force|e] //=.
case: (step pose vel force) => [[[pose' vel'] acc]|e] //=.
by rewrite (IHm _ _ _ le_kmn').
Qed.

(** C6: with as many forces as steps, the driver returns three traces
    exactly when they have lengths [n_steps + 1], [n_steps + 1] and
    [n_steps], hold the initial pose and velocity at index 0, and at every
    [n < n_steps] the step function applied to the pose and velocity of
    index [n] and the force of index [n] gives the pose and velocity of
    index [n + 1] and the acceleration of index [n]. *)
Theorem driver_traces pose0 (vels0 : vec6) forces step n_steps
    poses vels accs :
  size forces = n_steps ->
  apply_discrete_eom pose0 vels0 forces step n_steps = Ok (poses, vels, accs)
  <->
  [/\ size poses = n_steps.+1 /\ nth (pose_zero F) poses 0 = pose0,
      size vels = n_steps.+1 /\ nth 0%R vels 0 = vels0,
      size accs = n_steps &
      forall n, n < n_steps ->
        step (nth (pose_zero F) poses n) (nth 0%R vels n) (nth 0%R forces n)
        = Ok (nth (pose_zero F) poses n.+1, nth 0%R vels n.+1,
              nth 0%R accs n)].
Proof.
move=> sz_forces; rewrite apply_trajectory.
have le_n : 0 + n_steps <= size forces by rewrite sz_forces.
split.
  case Etr: trajectory => [[[ps vs] acs]|e] //= [<- <- <-].
  have [sz_ps sz_vs sz_acs rel] := (trajectoryP _ _ _ _ _ _ le_n).1 Etr.
  by rewrite /= sz_ps sz_vs sz_acs.
case: poses vels => [|pose ps] [|vel vs] [[] //= [sz_ps] -> [] // [sz_vs] ->].
move=> sz_accs rel.
have -> // : trajectory step forces 0 n_steps pose0 vels0 = Ok (ps, vs, accs).
exact/(trajectoryP _ _ _ _ _ _ le_n).
Qed.

(** C1, as the code has it: the driver does not compare the number of
    forces with [n_steps].  With fewer forces than steps the call fails:
    it behaves as the run over the forces that exist, followed by an
    [IndexError] for the read of the missing force (an earlier failure of a
    step comes first).  With more forces than steps nothing is raised for
    the length: the result is the one of the first [n_steps] forces. *)
Theorem driver_force_length pose0 (vels0 : vec6) forces step n_steps :
  (size forces < n_steps ->
     apply_discrete_eom pose0 vels0 forces step n_steps
     = _ <- apply_discrete_eom pose0 vels0 forces step (size forces) ;;
       Raise IndexError)
  /\ (n_steps <= size forces ->
     apply_discrete_eom pose0 vels0 forces step n_steps
     = apply_discrete_eom pose0 vels0 (take n_steps forces) step n_steps).
Proof.
split=> [lt_sz|le_sz]; rewrite !apply_trajectory.
  rewrite (@trajectory_short _ _ (size forces) n_steps) //.
  by case: trajectory.
by rewrite trajectory_take.
Qed.

End DriverTheory.

(** ** The integrator *)

Section IntegratorTheory.

Variable F : realFieldType.
Variables (sqrt cos sin : F -> F).
Variable lapack : forall n : nat, 'M[F]_n -> option 'M[F]_n.

Notation vec6 := 'cV[F]_(3 + 3).
Notation exp := (from_rotation_vector sqrt cos sin).
Notation generate_equations_of_motion := (generate_equations_of_motion lapack).
Notation integrator M_body dt :=
  (generate_discrete_eom sqrt cos sin (generate_equations_of_motion M_body) dt).

Implicit Types (a b : quaternion F) (pose : Pose F) (dt : F).

Lemma quaternion_eps_gt0 : 0 < quaternion_eps F.
Proof. by rewrite /quaternion_eps -lock invr_gt0 exprn_gt0 // ltr0n. Qed.

Lemma quaternion_eps_le1 : quaternion_eps F <= 1.
Proof.
rewrite /quaternion_eps -lock invf_le1 ?exprn_gt0 ?ltr0n //.
by rewrite exprn_ege1 // ler1n.
Qed.

(** A rotation vector whose three halved components exceed 1 is above the
    threshold of the exponential. *)
Lemma above_quaternion_eps (x y z : F) :
  1 < x -> 0 <= y * y + z * z -> quaternion_eps F ^+ 2 < x * x + y * y + z * z.
Proof.
move=> lt_1x ge0_yz.
have lt_eps : quaternion_eps F ^+ 2 < x * x.
  apply: (@le_lt_trans _ _ 1).
    by rewrite expr_le1 ?quaternion_eps_le1 // ltW // quaternion_eps_gt0.
  by rewrite -[1]mulr1 ltr_pM // ltW // ltr01.
by rewrite -addrA (lt_le_trans lt_eps) // lerDl.
Qed.

Lemma qmul1q a : qmul (qone F) a = a.
Proof. by case: a => w x y z; rewrite /qmul /=; congr Quat; ring. Qed.

(** The norm of a product is the product of the norms. *)
Lemma qnorm2_mul a b : qnorm2 (qmul a b) = qnorm2 a * qnorm2 b.
Proof. by case: a b => [w x y z] [w' x' y' z']; rewrite /qnorm2 /=; ring. Qed.

Lemma from_rotation_vector0 : exp 0 = qone F.
Proof.
rewrite /from_rotation_vector !getv0 !mul0r !addr0.
by rewrite ltNge sqr_ge0.
Qed.

Lemma half_norm2E (phi : 'cV[F]_3) :
  getv phi 0 / 2 * (getv phi 0 / 2) + getv phi 1 / 2 * (getv phi 1 / 2)
  + getv phi 2 / 2 * (getv phi 2 / 2) = half_norm2 phi.
Proof. by rewrite /half_norm2; field. Qed.

Lemma half_norm2_0 : half_norm2 (0 : 'cV[F]_3) = 0.
Proof. by rewrite /half_norm2 !getv0 expr0n /= !addr0 mul0r. Qed.

(** The library's exponential is the exponential with the threshold. *)
Lemma from_rotation_vectorE (phi : 'cV[F]_3) : exp phi = spec_exponential sqrt cos sin phi.
Proof.
rewrite /from_rotation_vector /spec_exponential half_norm2E.
by case: ifP => // _; congr Quat; rewrite invfM; ring.
Qed.

(** Above the threshold it is the exponential map, *)
Lemma from_rotation_vector_above (phi : 'cV[F]_3) :
  quaternion_eps F ^+ 2 < half_norm2 phi ->
  exp phi = exact_exponential sqrt cos sin phi.
Proof.
move=> above; rewrite from_rotation_vectorE /spec_exponential above.
rewrite /exact_exponential; case: eqP above => // ->.
by rewrite half_norm2_0 ltNge sqr_ge0.
Qed.

(** and up to the threshold it is the identity quaternion. *)
Lemma from_rotation_vector_below (phi : 'cV[F]_3) :
  half_norm2 phi <= quaternion_eps F ^+ 2 -> exp phi = Quat 1 0 0 0.
Proof.
by move=> below; rewrite from_rotation_vectorE /spec_exponential ltNge below.
Qed.

Lemma getv_tiny_rotation :
  [/\ getv (tiny_rotation F) 0 = quaternion_eps F,
      getv (tiny_rotation F) 1 = 0 & getv (tiny_rotation F) 2 = 0].
Proof.
by split; rewrite /getv /tiny_rotation; case: insubP => //= i _ val_i;
  rewrite mxE val_i.
Qed.

Lemma tiny_rotation_neq0 : tiny_rotation F != 0.
Proof.
apply/eqP => /(congr1 (fun v => getv v 0)).
case: getv_tiny_rotation => -> _ _; rewrite getv0 => /eqP.
by rewrite gt_eqF // quaternion_eps_gt0.
Qed.

Lemma half_norm2_tiny_rotation :
  half_norm2 (tiny_rotation F) = quaternion_eps F ^+ 2 / 4%:R.
Proof.
rewrite /half_norm2; case: getv_tiny_rotation => -> -> ->.
by rewrite expr0n /= !addr0.
Qed.

(** The rotation vector [(1e-14, 0, 0)] is not zero and the library maps it
    to the identity quaternion, *)
Lemma tiny_rotation_below :
  half_norm2 (tiny_rotation F) <= quaternion_eps F ^+ 2.
Proof.
rewrite half_norm2_tiny_rotation ler_pdivrMr ?ltr0n // ler_peMr ?sqr_ge0 //.
by rewrite ler1n.
Qed.

Lemma from_rotation_vector_tiny : exp (tiny_rotation F) = Quat 1 0 0 0.
Proof. exact: from_rotation_vector_below tiny_rotation_below. Qed.

(** which the exponential map does not, as soon as the sine of its half
    length is not zero: the vector part does not vanish. *)
Lemma exact_exponential_tiny :
  let n := sqrt (quaternion_eps F ^+ 2 / 4%:R) in
  n != 0 -> sin n != 0 ->
  qx (exact_exponential sqrt cos sin (tiny_rotation F)) != 0.
Proof.
move=> n n_neq0 sin_neq0; rewrite /exact_exponential.
rewrite (negPf tiny_rotation_neq0) half_norm2_tiny_rotation -/n /=.
case: getv_tiny_rotation => -> _ _.
rewrite mulf_eq0 invr_eq0 !mulf_eq0.
rewrite (negPf sin_neq0) (negPf n_neq0) (gt_eqF quaternion_eps_gt0) /=.
by rewrite pnatr_eq0.
Qed.

(** At rest, with no force and the identity as inertia, nothing
    accelerates. *)
Lemma eom_at_rest pose :
  qnorm2 (pose_q pose) != 0 ->
  generate_equations_of_motion 1%:M pose 0 0 = Ok 0.
Proof.
move=> q_neq0; rewrite eom_unit ?unitmx1 // /spec_acceleration.
by rewrite !mulmx0 subr0 mulmx0 addr0.
Qed.

Lemma discrete_eom_zero_inertia dt pose (nu tau : vec6) :
  qnorm2 (pose_q pose) != 0 ->
  integrator 0 dt pose nu tau = Raise LinAlgError.
Proof.
move=> q_neq0.
by rewrite /generate_discrete_eom /discrete_eom eom_zero_inertia.
Qed.

Lemma discrete_eom_at_rest dt pose :
  qnorm2 (pose_q pose) != 0 ->
  integrator 1%:M dt pose 0 0
  = Ok (mkPose (pose_t pose + dt) (pose_p pose) (pose_q pose), 0, 0).
Proof.
move=> q_neq0; rewrite /generate_discrete_eom /discrete_eom eom_at_rest //=.
rewrite scaler0 addr0 !linear0 addr0.
by rewrite from_rotation_vector0 qmul1q.
Qed.

Lemma trajectory_at_rest dt n m k (t : F) p a :
  (k + m <= n)%N -> qnorm2 a != 0 ->
  trajectory (integrator 1%:M dt) (nseq n 0) k m (mkPose t p a) 0
  = Ok ([seq mkPose (t + dt *+ i.+1) p a | i <- iota 0 m],
        nseq m 0, nseq m 0).
Proof.
move=> le_kmn a_neq0.
move: (integrator 1%:M dt) (discrete_eom_at_rest dt) => step step_at_rest.
elim: m k t le_kmn => [|m IHm] k t le_kmn //=.
have lt_kn : (k < n)%N.
  by rewrite (leq_trans _ le_kmn) // -(addSnnS k m) leq_addr.
have le_kmn' : (k.+1 + m <= n)%N by rewrite (addSnnS k m).
rewrite (getitem_nth 0) ?size_nseq // nth_nseq lt_kn /= step_at_rest //=.
rewrite (IHm _ _ le_kmn') /= mulr1n; congr (Ok (_ :: _, _, _)).
rewrite -[1%N]add1n iotaDl -map_comp; apply: eq_map => i /=.
by rewrite add1n [dt *+ i.+2]mulrS addrA.
Qed.

(** C3, as the code has it: one step of the integrator, when the dynamics
    return [accel]: the new velocity is [vels + dt * accel]; the new time
    is the old one plus [dt]; the new position uses the linear part of the
    new velocity; the new orientation is the exponential of [dt] times the
    angular part of the new velocity, multiplied on the left of the old
    orientation.  The exponential of the library is the exponential map,
    [(cos (|phi|/2), sin (|phi|/2) . phi / |phi|)], on the rotation vectors
    whose half length [|phi|/2] exceeds [1e-14], and maps every other one,
    the zero vector among them, to [(1, 0, 0, 0)].  The product is stored
    as it is: its norm is the product of the two norms. *)
Theorem discrete_eom_semi_implicit_euler
    (eom : Pose F -> vec6 -> vec6 -> result vec6) dt pose
    (vels forces accel : vec6) :
  eom pose vels forces = Ok accel ->
  [/\ generate_discrete_eom sqrt cos sin eom dt pose vels forces
      = Ok (spec_step sqrt cos sin dt pose vels accel),
      forall phi : 'cV[F]_3, quaternion_eps F ^+ 2 < half_norm2 phi ->
        exp phi = exact_exponential sqrt cos sin phi,
      forall phi : 'cV[F]_3, half_norm2 phi <= quaternion_eps F ^+ 2 ->
        exp phi = Quat 1 0 0 0,
      exp 0 = Quat 1 0 0 0 &
      qnorm2 (pose_q (spec_step sqrt cos sin dt pose vels accel).1.1)
      = qnorm2 (exp (dt *: dsubmx (vels + dt *: accel)))
        * qnorm2 (pose_q pose)].
Proof.
move=> eom_ok; split.
- rewrite /generate_discrete_eom /discrete_eom eom_ok /= /spec_step.
  by rewrite from_rotation_vectorE.
- exact: from_rotation_vector_above.
- exact: from_rotation_vector_below.
- exact: from_rotation_vector0.
- rewrite /spec_step /= -/(qmul _ (pose_q pose)) qnorm2_mul.
  by rewrite from_rotation_vectorE.
Qed.

(** C7: free motion.  With the identity as body inertia, zero forces and a
    zero initial velocity, from an initial pose whose orientation has a
    rotation matrix, the driver returns, for every [n_steps]: poses that
    keep the initial position and orientation while the timestamp advances
    by [dt] per index, velocities that are all zero and accelerations that
    are all zero. *)
Theorem free_motion_at_rest dt pose0 n_steps :
  qnorm2 (pose_q pose0) != 0 ->
  apply_discrete_eom pose0 0 (nseq n_steps 0) (integrator 1%:M dt) n_steps
  = Ok ([seq mkPose (pose_t pose0 + dt *+ i) (pose_p pose0) (pose_q pose0)
        | i <- iota 0 n_steps.+1],
        nseq n_steps.+1 0, nseq n_steps 0).
Proof.
case: pose0 => t p a /= a_neq0.
rewrite apply_trajectory trajectory_at_rest //= /with_initial_state /=.
rewrite mulr0n addr0; congr (Ok (_ :: _, _, _)).
by rewrite -[1%N]add1n iotaDl -map_comp.
Qed.

(** C9: with [n_steps = 0] the driver returns the initial pose and the
    initial velocity as one-element traces and an empty acceleration trace,
    whatever the step function and the forces: the step function is not
    consulted, be it one that raises at every call or the integrator of any
    body inertia, singular or not. *)
Theorem driver_zero_steps pose0 (vels0 : vec6) (forces : seq vec6) :
  [/\ forall step,
        apply_discrete_eom pose0 vels0 forces step 0
        = Ok ([:: pose0], [:: vels0], [::]),
      apply_discrete_eom pose0 vels0 forces
        (fun _ _ _ => Raise LinAlgError) 0
      = Ok ([:: pose0], [:: vels0], [::]) &
      forall M_body dt,
        apply_discrete_eom pose0 vels0 forces
          (generate_discrete_eom sqrt cos sin
             (generate_equations_of_motion M_body) dt) 0
        = Ok ([:: pose0], [:: vels0], [::])].
Proof. by []. Qed.

(** C8, as the code has it: with a body inertia that has no inverse and an
    orientation that has a rotation matrix, the dynamics function raises
    [LinAlgError] at the inversion when the inertia is the zero matrix, and
    otherwise does what LAPACK does with the fixed-frame inertia: it raises
    [LinAlgError] when LAPACK reports a zero pivot and returns the formula
    on the matrix LAPACK returns when rounding hides the singularity.  A
    raise is the inversion error, is not retried, and the integration step
    then raises it too, with no partial result. *)
Theorem eom_inertia_without_inverse (M_body : 'M[F]_(3 + 3)) dt pose
    (nu tau : vec6) :
  \det M_body = 0 -> qnorm2 (pose_q pose) != 0 ->
  let M := spec_fixed_inertia M_body (pose_q pose) in
  [/\ generate_equations_of_motion M_body pose nu tau
      = if M_body == 0 then Raise LinAlgError
        else if lapack M is Some Minv
        then Ok (Minv *m (tau - spec_coriolis M nu *m nu)
                 + block_mx (hat (dsubmx nu)) 0 0 (hat (dsubmx nu)) *m nu)
        else Raise LinAlgError,
      generate_equations_of_motion 0 pose nu tau = Raise LinAlgError
      /\ integrator 0 dt pose nu tau = Raise LinAlgError &
      forall e, generate_equations_of_motion M_body pose nu tau = Raise e ->
        e = LinAlgError
        /\ integrator M_body dt pose nu tau = Raise LinAlgError].
Proof.
move=> /det0_singular M_sing q_neq0 M.
have eomE := eom_no_inverse lapack nu tau M_sing q_neq0.
split=> //.
  by split; [exact: eom_zero_inertia | exact: discrete_eom_zero_inertia].
move=> e; rewrite /generate_discrete_eom /discrete_eom eomE.
by case: ifP => [_ [<-]|_] //; case: lapack => [Minv|] // [<-].
Qed.

End IntegratorTheory.

(** ** The statements at the concrete configuration *)

Section Instances.

Notation vec6 := 'cV[rat]_(3 + 3).
Notation generate_equations_of_motion :=
  (generate_equations_of_motion lapack_returns).

Lemma rest_pose_oriented : qnorm2 (pose_q rest_pose) != 0.
Proof. by []. Qed.

Lemma zero_inertia_singular : \det (0 : 'M[rat]_(3 + 3)) = 0.
Proof. exact: det0. Qed.

(** A run of the driver over more forces than steps returns normally, and
    a run over fewer forces than steps on a singular inertia fails with the
    error of its first integration step: the length of the forces is not
    checked when the driver is entered. *)
Lemma driver_ignores_force_length :
  [/\ size [:: (0 : vec6); 0] != 1%N,
      apply_discrete_eom rest_pose 0 [:: 0; 0] unit_integrator 1
      = Ok ([:: rest_pose; mkPose (0 + millisecond *+ 1) 0 (qone rat)],
            [:: 0; 0], [:: 0]),
      size (nseq 4 (0 : vec6)) != 5%N &
      apply_discrete_eom rest_pose 0 (nseq 4 0) singular_integrator 5
      = Raise LinAlgError].
Proof.
split=> //; rewrite apply_trajectory.
  have le_steps : (0 + 1 <= 2)%N by [].
  have := trajectory_at_rest newton_sqrt taylor_cos taylor_sin lapack_returns
            millisecond 0 0 le_steps rest_pose_oriented.
  by rewrite -/unit_integrator -/rest_pose => ->.
have force0 : getitem (nseq 4 (0 : vec6)) 0 = Ok 0 by [].
rewrite (trajectory_raise _ force0 (e := LinAlgError)) //.
exact: discrete_eom_zero_inertia rest_pose_oriented.
Qed.

(** The statements above that carry hypotheses, applied to the concrete
    configuration. *)
Lemma driver_force_length_witness :
  [/\ (size (nseq 4 (0%R : vec6)) < 5)%N,
      apply_discrete_eom rest_pose 0 (nseq 4 0) unit_integrator 5
      = _ <- apply_discrete_eom rest_pose 0 (nseq 4 0) unit_integrator
               (size (nseq 4 (0 : vec6))) ;;
        Raise IndexError,
      (3 <= size (nseq 4 (0%R : vec6)))%N &
      apply_discrete_eom rest_pose 0 (nseq 4 0) unit_integrator 3
      = apply_discrete_eom rest_pose 0 (take 3 (nseq 4 0)) unit_integrator 3].
Proof.
have lt_sz : (size (nseq 4 (0%R : vec6)) < 5)%N by [].
have le_sz : (3 <= size (nseq 4 (0%R : vec6)))%N by [].
split; [exact: lt_sz | | exact: le_sz |].
  exact: (proj1 (driver_force_length rest_pose 0 (nseq 4 0) unit_integrator 5)
            lt_sz).
exact: (proj2 (driver_force_length rest_pose 0 (nseq 4 0) unit_integrator 3)
          le_sz).
Defined.

Lemma tilted_pose_oriented : qnorm2 (pose_q tilted_pose) != 0.
Proof. by []. Qed.

Lemma rank5_inertia_singular : \det rank5_inertia = 0.
Proof.
rewrite /rank5_inertia det_ublock det1 mul1r.
rewrite (expand_det_row _ (Ordinal (isT : (2 < 3)%N))) big1 // => j _.
by rewrite mxE /=; case: j => [[|[|[|?]]] ?] //=; rewrite mul0r.
Qed.

Lemma rank5_inertia_neq0 : rank5_inertia != 0.
Proof.
apply/eqP => /(congr1 ulsubmx); rewrite block_mxKul => /matrixP/(_ 0 0).
by rewrite !mxE => /eqP; rewrite oner_eq0.
Qed.

(** On the inertia [diag(1, 1, 1, 1, 1, 0)], which has no inverse, with the
    orientation [(1, 2, 3, 4)], zero velocity and zero force, the dynamics
    function returns the zero acceleration when LAPACK returns a matrix,
    as it does when rounding hides the singularity: nothing is raised. *)
Lemma eom_returns_on_singular_inertia :
  [/\ \det rank5_inertia = 0, qnorm2 (pose_q tilted_pose) != 0 &
      generate_equations_of_motion rank5_inertia tilted_pose 0 0 = Ok 0].
Proof.
split; [exact: rank5_inertia_singular | exact: tilted_pose_oriented |].
rewrite (eom_no_inverse _ _ _ (det0_singular rank5_inertia_singular)
           tilted_pose_oriented).
rewrite (negPf rank5_inertia_neq0) /lapack_returns.
by rewrite !mulmx0 subr0 mulmx0 addr0.
Qed.

Lemma eom_inertia_without_inverse_witness :
  [/\ \det rank5_inertia = 0, qnorm2 (pose_q tilted_pose) != 0,
      generate_equations_of_motion rank5_inertia tilted_pose spin_velocity
        push_force
      = Ok (invmx (spec_fixed_inertia rank5_inertia (pose_q tilted_pose)
                   + (1 / 1000%:R)%:M)
            *m (push_force
                - spec_coriolis
                    (spec_fixed_inertia rank5_inertia (pose_q tilted_pose))
                    spin_velocity *m spin_velocity)
            + block_mx (hat (dsubmx spin_velocity)) 0 0
                (hat (dsubmx spin_velocity)) *m spin_velocity),
      generate_equations_of_motion 0 tilted_pose spin_velocity push_force
      = Raise LinAlgError &
      generate_discrete_eom newton_sqrt taylor_cos taylor_sin
        (generate_equations_of_motion 0) two_seconds tilted_pose
        spin_velocity push_force
      = Raise LinAlgError].
Proof.
have [run [raise0 raise0_step] _] :=
  eom_inertia_without_inverse newton_sqrt taylor_cos taylor_sin
    lapack_returns two_seconds spin_velocity push_force
    rank5_inertia_singular tilted_pose_oriented.
split; [exact: rank5_inertia_singular | exact: tilted_pose_oriented
       | | exact: raise0 | exact: raise0_step].
by rewrite run (negPf rank5_inertia_neq0).
Defined.

Lemma eom_depends_on_orientation_only_witness :
  pose_q rest_pose = pose_q far_pose
  /\ generate_equations_of_motion 1%:M rest_pose 0 0
     = generate_equations_of_motion 1%:M far_pose 0 0.
Proof.
have same_q : pose_q rest_pose = pose_q far_pose by [].
by split; [|apply: eom_depends_on_orientation_only].
Defined.

Lemma free_motion_at_rest_witness :
  qnorm2 (pose_q rest_pose) != 0
  /\ apply_discrete_eom rest_pose 0 (nseq 3 0) unit_integrator 3
     = Ok ([seq mkPose (0 + millisecond *+ i) 0 (qone rat) | i <- iota 0 4],
           nseq 4 0, nseq 3 0).
Proof.
split; first exact: rest_pose_oriented.
exact: (free_motion_at_rest newton_sqrt taylor_cos taylor_sin lapack_returns
          millisecond 3 rest_pose_oriented).
Defined.

Lemma driver_traces_witness :
  size (nseq 2 (0 : vec6)) = 2%N
  /\ (apply_discrete_eom rest_pose 0 (nseq 2 0) unit_integrator 2
      = Ok ([seq mkPose (0 + millisecond *+ i) 0 (qone rat) | i <- iota 0 3],
            nseq 3 0, nseq 2 0)
      <-> [/\ size [seq mkPose (0 + millisecond *+ i) 0 (qone rat)
                   | i <- iota 0 3] = 3%N
              /\ nth (pose_zero rat)
                   [seq mkPose (0 + millisecond *+ i) 0 (qone rat)
                   | i <- iota 0 3] 0 = rest_pose,
              size (nseq 3 (0 : vec6)) = 3%N
              /\ nth 0 (nseq 3 (0 : vec6)) 0 = 0,
              size (nseq 2 (0 : vec6)) = 2%N &
              forall n, (n < 2)%N ->
                unit_integrator
                  (nth (pose_zero rat)
                     [seq mkPose (0 + millisecond *+ i) 0 (qone rat)
                     | i <- iota 0 3] n)
                  (nth 0 (nseq 3 (0 : vec6)) n) (nth 0 (nseq 2 (0 : vec6)) n)
                = Ok (nth (pose_zero rat)
                        [seq mkPose (0 + millisecond *+ i) 0 (qone rat)
                        | i <- iota 0 3] n.+1,
                      nth 0 (nseq 3 (0 : vec6)) n.+1,
                      nth 0 (nseq 2 (0 : vec6)) n)]).
Proof.
have sz_forces : size (nseq 2 (0 : vec6)) = 2%N by [].
split; first exact: sz_forces.
exact: (@driver_traces _ rest_pose 0 (nseq 2 0) unit_integrator 2 _ _ _
          sz_forces).
Defined.

End Instances.

(** ** More on the skew operator *)

Section SkewAlgebra.

Variable F : fieldType.

Implicit Types (u v w : 'cV[F]_3) (a : F).

Lemma getv_ord v (i : 'I_3) : getv v i = v i 0.
Proof.
rewrite /getv; case: insubP => [j _ /val_inj-> //|].
by rewrite ltn_ord.
Qed.

Lemma getvD u v k : getv (u + v) k = getv u k + getv v k.
Proof. by rewrite /getv; case: insub => [i|]; rewrite ?mxE ?addr0. Qed.

Lemma getvZ a v k : getv (a *: v) k = a * getv v k.
Proof. by rewrite /getv; case: insub => [i|]; rewrite ?mxE ?mulr0. Qed.

(** The three components of a product of a 3x3 matrix and a vector. *)
Lemma mulmx_vec3 (A : 'M[F]_3) w (i : 'I_3) :
  (A *m w) i 0
  = A i ord0 * getv w 0 + A i (lift ord0 ord0) * getv w 1
    + A i (lift ord0 (lift ord0 ord0)) * getv w 2.
Proof.
by rewrite mxE !big_ord_recl big_ord0 addr0 addrA -!getv_ord.
Qed.

Lemma hat_mulE v w : hat v *m w = cross v w.
Proof.
apply/matrixP => i j; rewrite (ord1 j) mulmx_vec3 !mxE /=.
by case: i => [[|[|[|?]]] ?] //=; ring.
Qed.

(** X1: the matrix of [hat] is skew-symmetric. *)
Theorem hat_skew_symmetric v : (hat v)^T = - hat v.
Proof.
apply/matrixP => i j; rewrite !mxE.
case: i => [[|[|[|?]]] ?] //; case: j => [[|[|[|?]]] ?] //=.
all: by rewrite ?oppr0 ?opprK.
Qed.

(** X2: [hat v] is the matrix of the cross product by [v] on the left. *)
Theorem hat_cross_product v w : hat v *m w = cross v w.
Proof.
apply/matrixP => i j; rewrite (ord1 j) mulmx_vec3 !mxE /=.
by case: i => [[|[|[|?]]] ?] //=; ring.
Qed.

(** X3: [hat] is linear in its vector. *)
Theorem hat_linear a u v : hat (a *: u + v) = a *: hat u + hat v.
Proof.
apply/matrixP => i j; rewrite !mxE.
case: i => [[|[|[|?]]] ?] //; case: j => [[|[|[|?]]] ?] //=;
  rewrite ?getvD ?getvZ; ring.
Qed.

Lemma hat_anticommute u w : hat u *m w = - (hat w *m u).
Proof.
apply/matrixP => i j; rewrite (ord1 j) [in RHS]mxE !mulmx_vec3 !mxE /=.
by case: i => [[|[|[|?]]] ?] //=; ring.
Qed.

Lemma hat_mul_self v : hat v *m v = 0.
Proof.
apply/matrixP => i j; rewrite (ord1 j) mulmx_vec3 !mxE /=.
by case: i => [[|[|[|?]]] ?] //=; ring.
Qed.

(** X4: the cross product is anticommutative and a vector is annihilated
    by its own matrix. *)
Theorem hat_antisymmetry u w :
  hat u *m w = - (hat w *m u) /\ hat u *m u = 0.
Proof.
split; apply/matrixP => i j; rewrite (ord1 j).
  rewrite [in RHS]mxE !mulmx_vec3 !mxE /=.
  by case: i => [[|[|[|?]]] ?] //=; ring.
rewrite mulmx_vec3 !mxE /=.
by case: i => [[|[|[|?]]] ?] //=; ring.
Qed.

End SkewAlgebra.

(** ** More on the point transform *)

Section TransformAlgebra.

Variable F : fieldType.

Implicit Types (A B : 'M[F]_(3 + 3)) (r s v w : 'cV[F]_3) (a : F).

Lemma hatD r s : hat (r + s) = hat r + hat s.
Proof.
apply/matrixP => i j; rewrite !mxE.
case: i => [[|[|[|?]]] ?] //; case: j => [[|[|[|?]]] ?] //=;
  rewrite ?getvD; ring.
Qed.

Lemma velocity_shiftD r s :
  velocity_shift r *m velocity_shift s = velocity_shift (r + s).
Proof.
rewrite /velocity_shift mulmx_block hatD opprD.
by rewrite !mul1mx !mulmx1 !mul0mx !mulmx0 !addr0 add0r [- hat s - _]addrC.
Qed.

Lemma det_velocity_shift r : \det (velocity_shift r) = 1.
Proof. by rewrite /velocity_shift det_ublock !det1 mulr1. Qed.

Lemma velocity_shift_unit r : velocity_shift r \in unitmx.
Proof. by rewrite unitmxE det_velocity_shift unitr1. Qed.

(** X5: the two forms of the transform in the derivation, (eq:transform1)
    block by block and (eq:transform2) as a sum, are the same matrix. *)
Theorem transform_blocks_equivalent A r :
  transform_spatial_inertia_blocks A r = transform_spatial_inertia A r.
Proof.
rewrite /transform_spatial_inertia /transform_spatial_inertia_blocks.
move: (submxK A).
move: (ulsubmx A) (ursubmx A) (dlsubmx A) (drsubmx A) => A11 A12 A21 A22 <-.
by rewrite add_block_mx addr0; congr block_mx; rewrite addrC.
Qed.

(** X6: a zero displacement leaves every matrix unchanged. *)
Theorem transform_zero A : transform_spatial_inertia A 0 = A.
Proof.
rewrite /transform_spatial_inertia hat0 !mulmx0 !mul0mx !(oppr0, addr0).
have -> : block_mx 0 0 0 0 = (0 : 'M[F]_(3 + 3)).
  by apply/matrixP => i j; rewrite !mxE; do 2![case: split => ?; rewrite !mxE].
by rewrite addr0.
Qed.

(** X7: transforming by [r] and then by [s] is transforming by [r + s]. *)
Theorem transform_compose A r s :
  transform_spatial_inertia (transform_spatial_inertia A r) s
  = transform_spatial_inertia A (r + s).
Proof.
rewrite !transform_congruence -velocity_shiftD trmx_mul.
by rewrite !mulmxA.
Qed.

(** X8: the transform commutes with transposition, so that it maps
    symmetric matrices to symmetric matrices. *)
Theorem transform_transpose A r :
  (transform_spatial_inertia A r)^T = transform_spatial_inertia A^T r
  /\ (A^T = A ->
      (transform_spatial_inertia A r)^T = transform_spatial_inertia A r).
Proof.
have tr_eq :
  (transform_spatial_inertia A r)^T = transform_spatial_inertia A^T r.
  by rewrite !transform_congruence !trmx_mul trmxK mulmxA.
by split=> // A_sym; rewrite tr_eq A_sym.
Qed.

(** X9: the transform keeps the determinant, hence invertibility. *)
Theorem transform_determinant A r :
  \det (transform_spatial_inertia A r) = \det A
  /\ (transform_spatial_inertia A r \in unitmx) = (A \in unitmx).
Proof.
rewrite transform_congruence; split.
  by rewrite !det_mulmx det_tr det_velocity_shift mul1r mulr1.
by rewrite !unitmx_mul unitmx_tr velocity_shift_unit andbT.
Qed.

(** X10: the transform is linear in the matrix. *)
Theorem transform_linear a A B r :
  transform_spatial_inertia (a *: A + B) r
  = a *: transform_spatial_inertia A r + transform_spatial_inertia B r.
Proof.
rewrite !transform_congruence mulmxDr mulmxDl.
by rewrite -scalemxAr -scalemxAl.
Qed.

(** X11: for a rigid body of mass [m] and inertia [J] about its center of
    mass, the transform is the parallel-axis formula: coupling blocks
    [-m hat(r)] and [m hat(r)], and inertia [J - m hat(r) hat(r)]. *)
Theorem transform_parallel_axis (m : F) (J : 'M[F]_3) r :
  transform_spatial_inertia (rigid_body_inertia m J) r
  = block_mx (m%:M) (- (m *: hat r)) (m *: hat r)
             (J - m *: (hat r *m hat r)).
Proof.
rewrite /transform_spatial_inertia /rigid_body_inertia.
rewrite block_mxKul block_mxKur block_mxKdl add_block_mx.
rewrite mul_scalar_mx mul_mx_scalar -scalemxAl !mulmx0 mul0mx.
by rewrite !add0r !addr0 subr0.
Qed.

(** X12: the quadratic form of the kinetic energy expands over the four
    blocks of the matrix as in (eq:left-side). *)
Theorem quadratic_form_expansion A v w :
  quadratic_form A v w = quadratic_form_blocks A v w.
Proof.
rewrite /quadratic_form /quadratic_form_blocks -{1}[A]submxK.
rewrite tr_col_mx mul_row_block mul_row_col !mulmxDl.
by rewrite addrACA !addrA.
Qed.

End TransformAlgebra.

(** ** More on the equations of motion *)

Section DynamicsAlgebra.

Variable F : fieldType.
Variable lapack : forall n : nat, 'M[F]_n -> option 'M[F]_n.

Notation vec6 := 'cV[F]_(3 + 3).
Notation inv := (inv lapack).
Notation eomB := (eomB lapack).
Notation generate_equations_of_motion := (generate_equations_of_motion lapack).

Implicit Types (M : 'M[F]_(3 + 3)) (pose : Pose F) (nu tau : vec6).
Implicit Types (u p w : 'cV[F]_3) (a : F).

Lemma hatZ a u : hat (a *: u) = a *: hat u.
Proof.
apply/matrixP => i j; rewrite !mxE.
case: i => [[|[|[|?]]] ?] //; case: j => [[|[|[|?]]] ?] //=;
  rewrite ?getvZ; ring.
Qed.

(** The scalar [u . (p x w)], as a polynomial in the components. *)
Lemma triple_product u p w :
  (u^T *m (hat p *m w)) 0 0
  = getv u 0 * (getv p 1 * getv w 2 - getv p 2 * getv w 1)
    + getv u 1 * (getv p 2 * getv w 0 - getv p 0 * getv w 2)
    + getv u 2 * (getv p 0 * getv w 1 - getv p 1 * getv w 0).
Proof.
rewrite mxE !big_ord_recl big_ord0 addr0 addrA !mulmx_vec3 !mxE /=.
rewrite -!getv_ord /=; ring.
Qed.

Lemma triple_product_swap u p w :
  u^T *m (hat p *m w) = - (w^T *m (hat p *m u)).
Proof.
apply/matrixP => i j; rewrite !ord1 [in RHS]mxE !triple_product; ring.
Qed.

Lemma triple_product_self u p : u^T *m (hat p *m u) = 0.
Proof.
apply/matrixP => i j; rewrite !ord1 triple_product [in RHS]mxE; ring.
Qed.

Lemma skew_block_power p1 p2 (nu1 nu2 : 'cV[F]_3) :
  (col_mx nu1 nu2)^T
  *m (block_mx 0 (- hat p1) (- hat p1) (- hat p2) *m col_mx nu1 nu2) = 0.
Proof.
rewrite mul_block_col tr_col_mx mul_row_col mul0mx add0r !mulNmx.
rewrite !mulmxN mulmxDr !mulmxN triple_product_self subr0.
by rewrite [nu1^T *m _]triple_product_swap opprK subrr.
Qed.

(** The Coriolis term does no work. *)
Lemma coriolis_power M nu : nu^T *m (spec_coriolis M nu *m nu) = 0.
Proof.
have := skew_block_power
  (ulsubmx M *m usubmx nu + ursubmx M *m dsubmx nu)
  (dlsubmx M *m usubmx nu + drsubmx M *m dsubmx nu) (usubmx nu) (dsubmx nu).
by rewrite vsubmxK.
Qed.

Lemma eomB_unfold M nu tau :
  eomB M nu tau
  = Minv <- inv M ;; Ok (Minv *m (tau - spec_coriolis M nu *m nu)).
Proof. by []. Qed.

(** X13: power balance of the body-frame equations: with an invertible
    inertia [M], [eomB] returns an acceleration, and the power of the
    inertial force [M . acc] along the velocity is the power of the applied
    force; the Coriolis term does no work, whatever the inertia matrix. *)
Theorem eomB_power_balance M nu tau :
  M \in unitmx ->
  exists2 acc, eomB M nu tau = Ok acc & nu^T *m (M *m acc) = nu^T *m tau.
Proof.
move=> M_unit; exists (invmx M *m (tau - spec_coriolis M nu *m nu)).
  by rewrite eomB_unfold inv_unit.
by rewrite mulKVmx // mulmxBr coriolis_power subr0.
Qed.

(** X14: at zero velocity the dynamics reduce to Newton's law in the fixed
    frame: the acceleration is the inverse inertia applied to the force. *)
Theorem eom_zero_velocity M pose tau :
  M \in unitmx -> qnorm2 (pose_q pose) != 0 ->
  generate_equations_of_motion M pose 0 tau
  = Ok (invmx (spec_fixed_inertia M (pose_q pose)) *m tau).
Proof.
move=> M_unit q_neq0; rewrite eom_unit // /spec_acceleration.
by rewrite !mulmx0 subr0 addr0.
Qed.

(** X15: the acceleration is affine in the applied force: an additional
    force [dtau] adds the matrix returned by the inversion of the
    fixed-frame inertia applied to [dtau], and failures are the same with
    and without it; for an invertible body inertia that matrix is the
    inverse [M^-1] of the fixed-frame inertia. *)
Theorem eom_affine_in_force M pose nu tau dtau :
  qnorm2 (pose_q pose) != 0 ->
  generate_equations_of_motion M pose nu (tau + dtau)
  = (Minv <- inv (spec_fixed_inertia M (pose_q pose)) ;;
     acc <- generate_equations_of_motion M pose nu tau ;;
     Ok (acc + Minv *m dtau))
  /\ (M \in unitmx ->
      generate_equations_of_motion M pose nu (tau + dtau)
      = acc <- generate_equations_of_motion M pose nu tau ;;
        Ok (acc + invmx (spec_fixed_inertia M (pose_q pose)) *m dtau)).
Proof.
move=> q_neq0.
have affine :
  generate_equations_of_motion M pose nu (tau + dtau)
  = Minv <- inv (spec_fixed_inertia M (pose_q pose)) ;;
    acc <- generate_equations_of_motion M pose nu tau ;;
    Ok (acc + Minv *m dtau).
  rewrite /generate_equations_of_motion !eom_unfold //.
  case: (inv _) => [Minv|e] //=; congr (Ok _).
  by rewrite -addrA [dtau - _]addrC addrA mulmxDr addrAC.
split=> // M_unit.
by rewrite affine inv_unit // spec_fixed_inertia_unit.
Qed.

Lemma spec_fixed_inertia_scalar a (q : quaternion F) :
  qnorm2 q != 0 -> spec_fixed_inertia (a%:M) q = a%:M.
Proof.
move=> q_neq0; rewrite /spec_fixed_inertia /=.
rewrite -/(block_diag _ _) mul_mx_scalar -scalemxAl block_diag_tr.
rewrite block_diag_mul rotation_matrix_orthogonal //.
by rewrite /block_diag -scalar_mx_block -mul_scalar_mx mulmx1.
Qed.

(** For an isotropic inertia [a . I] the Coriolis and frame terms cancel. *)
Lemma eom_isotropic a pose nu tau :
  a != 0 -> qnorm2 (pose_q pose) != 0 ->
  generate_equations_of_motion (a%:M) pose nu tau = Ok (a^-1 *: tau).
Proof.
move=> a_neq0 q_neq0.
have a_unit : (a%:M : 'M[F]_(3 + 3)) \in unitmx.
  by rewrite unitmxE det_scalar unitfE expf_neq0.
rewrite eom_unit // /spec_acceleration.
rewrite spec_fixed_inertia_scalar // invmx_scalar mul_scalar_mx.
rewrite /spec_coriolis [a%:M]scalar_mx_block.
rewrite block_mxKul block_mxKur block_mxKdl block_mxKdr.
rewrite !mul_scalar_mx !mul0mx addr0 add0r !hatZ.
move: (vsubmxK nu); move: (usubmx nu) (dsubmx nu) => nu1 nu2 nuE.
rewrite -nuE !mul_block_col !mul0mx add0r addr0 !mulNmx -!scalemxAl.
rewrite !hat_mul_self scaler0 oppr0 addr0; congr (Ok _).
rewrite scalerBr -addrA scale_col_mx scalerN scalerA mulVf // scale1r.
rewrite scaler0 opp_col_mx opprK oppr0 add_col_mx addr0.
by rewrite [hat nu2 *m _]hat_anticommute subrr col_mx0 addr0.
Qed.

(** X16: with an isotropic body inertia [a . I], [a] nonzero, the
    acceleration is the force divided by [a], whatever the velocity and the
    orientation: the Coriolis term and the frame term cancel. *)
Theorem eom_isotropic_inertia a pose nu tau :
  a != 0 -> qnorm2 (pose_q pose) != 0 ->
  generate_equations_of_motion (a%:M) pose nu tau = Ok (a^-1 *: tau).
Proof. exact: eom_isotropic. Qed.

(** The rotation matrix of a quaternion of nonzero norm rotates vectors as
    the conjugation by the quaternion does. *)
Lemma rotation_matrix_rotate (q : quaternion F) w :
  qnorm2 q != 0 -> rotation_matrix q *m w = rotate q w.
Proof.
case: q => qw qx qy qz; rewrite /qnorm2 /= => n_neq0.
apply/matrixP => i j; rewrite (ord1 j) mulmx_vec3 !mxE /=.
by case: i => [[|[|[|?]]] ?] //=; rewrite /qnorm2 /=; field.
Qed.

(** C2: for an invertible body inertia and an orientation [q] of nonzero
    norm, the dynamics function returns
    [M^-1 . (tau - C(nu) . nu) + blockdiag(hat(w), hat(w)) . nu], with
    [M = blockdiag(R, R) . M_body . blockdiag(R, R)^T], [w] the angular part
    of [nu] and [C(nu)] the matrix of the four blocks [0], [-hat(p1)],
    [-hat(p1)], [-hat(p2)] for [p1 = M11 nu1 + M12 nu2] and
    [p2 = M21 nu1 + M22 nu2].  Here [M^-1] is the two-sided inverse of [M];
    the products by [C(nu)] and by [blockdiag(hat(w), hat(w))] are the cross
    products [(- p1 x nu2; - p1 x nu1 - p2 x nu2)] and [(w x nu1; w x nu2)];
    and [R], the matrix the library returns for [q], is orthogonal and
    rotates every vector as the conjugation by [q] does. *)
Theorem eom_acceleration M_body pose nu tau :
  M_body \in unitmx -> qnorm2 (pose_q pose) != 0 ->
  let q := pose_q pose in
  let R := rotation_matrix q in
  let M := block_mx R 0 0 R *m M_body *m (block_mx R 0 0 R)^T in
  let nu1 := usubmx nu in
  let nu2 := dsubmx nu in
  let p1 := ulsubmx M *m nu1 + ursubmx M *m nu2 in
  let p2 := dlsubmx M *m nu1 + drsubmx M *m nu2 in
  let C := block_mx 0 (- hat p1) (- hat p1) (- hat p2) in
  [/\ generate_equations_of_motion M_body pose nu tau
      = Ok (invmx M *m (tau - C *m nu)
            + block_mx (hat nu2) 0 0 (hat nu2) *m nu),
      invmx M *m M = 1%:M /\ M *m invmx M = 1%:M,
      C *m nu = col_mx (- cross p1 nu2) (- cross p1 nu1 - cross p2 nu2)
      /\ block_mx (hat nu2) 0 0 (hat nu2) *m nu
         = col_mx (cross nu2 nu1) (cross nu2 nu2),
      as_rotation_matrix q = Ok R &
      R *m R^T = 1%:M /\ forall w, R *m w = rotate q w].
Proof.
move=> M_unit q_neq0 q R M nu1 nu2 p1 p2 C.
have MU : M \in unitmx by rewrite [M \in _]spec_fixed_inertia_unit.
split.
- exact: eom_unit.
- by split; [exact: mulVmx | exact: mulmxV].
- have nuE : nu = col_mx nu1 nu2 by rewrite vsubmxK.
  split; rewrite [X in _ *m X]nuE mul_block_col.
    by rewrite mul0mx add0r !mulNmx !hat_mulE.
  by rewrite !mul0mx add0r addr0 !hat_mulE.
- exact: as_rotation_matrix_ok.
- split; first exact: rotation_matrix_orthogonal.
  by move=> w; apply: rotation_matrix_rotate.
Qed.

End DynamicsAlgebra.

(** ** The dynamics at the worked configuration *)

Section WorkedDynamics.

Variable F : realFieldType.

Implicit Types a b c x y z : F.

Lemma getv_col3 a b c :
  [/\ getv (col3 a b c) 0 = a, getv (col3 a b c) 1 = b
    & getv (col3 a b c) 2 = c].
Proof.
by split; rewrite /getv /col3; case: insubP => //= i _ val_i;
  rewrite mxE val_i.
Qed.

Lemma col3P (v : 'cV[F]_3) : v = col3 (getv v 0) (getv v 1) (getv v 2).
Proof.
apply/matrixP => i j; rewrite (ord1 j) -getv_ord mxE.
by case: i => [[|[|[|?]]] ?].
Qed.

Lemma eq_col3 a b c a' b' c' :
  a = a' -> b = b' -> c = c' -> col3 a b c = col3 a' b' c'.
Proof. by move=> -> -> ->. Qed.

Lemma col3D a b c x y z :
  col3 a b c + col3 x y z = col3 (a + x) (b + y) (c + z).
Proof.
rewrite [LHS]col3P !getvD.
by case: (getv_col3 a b c) (getv_col3 x y z) => -> -> -> [-> -> ->].
Qed.

Lemma col3N a b c : - col3 a b c = col3 (- a) (- b) (- c).
Proof.
by rewrite [LHS]col3P !getvN; case: (getv_col3 a b c) => -> -> ->.
Qed.

Lemma cross_col3 a b c x y z :
  cross (col3 a b c) (col3 x y z)
  = col3 (b * z - c * y) (c * x - a * z) (a * y - b * x).
Proof.
rewrite /cross.
by case: (getv_col3 a b c) (getv_col3 x y z) => -> -> -> [-> -> ->].
Qed.

Lemma diag3_mul_col3 a b c x y z :
  diag3 a b c *m col3 x y z = col3 (a * x) (b * y) (c * z).
Proof.
apply/matrixP => i j; rewrite (ord1 j) mulmx_vec3 !mxE.
case: (getv_col3 x y z) => -> -> ->.
by case: i => [[|[|[|?]]] ?] //=; ring.
Qed.

Lemma rotation_matrix_quarter_turn :
  rotation_matrix (quarter_turn F)
  = rows3 [:: [:: 1; 0; 0]; [:: 0; 0; -1]; [:: 0; 1; 0]].
Proof.
apply/matrixP => i j; rewrite !mxE /qnorm2 /=.
by case: i => [[|[|[|?]]] ?] //; case: j => [[|[|[|?]]] ?] //=; field.
Qed.

Lemma quarter_turn_diag3 a b c :
  rows3 [:: [:: 1; 0; 0]; [:: 0; 0; -1]; [:: 0; 1; 0]] *m diag3 a b c
  *m (rows3 [:: [:: 1; 0; 0]; [:: 0; 0; -1]; [:: 0; 1; 0]])^T
  = diag3 a c b.
Proof.
apply/matrixP => i j; rewrite mxE !big_ord_recl big_ord0.
rewrite !mxE !big_ord_recl !big_ord0 !mxE /=.
by case: i => [[|[|[|?]]] ?] //; case: j => [[|[|[|?]]] ?] //=; ring.
Qed.

Lemma quarter_turn_oriented : qnorm2 (quarter_turn F) != 0.
Proof.
rewrite /qnorm2 /= !mulr0 !addr0 mulr1 -(natrD _ 1 1).
by rewrite pnatr_eq0.
Qed.

Lemma fixed_diagonal_inertia :
  spec_fixed_inertia (diagonal_inertia F) (quarter_turn F)
  = block_mx (diag3 1 3%:R 2%:R) 0 0 1%:M.
Proof.
rewrite /spec_fixed_inertia /diagonal_inertia; lazy zeta.
rewrite tr_block_mx !trmx0.
rewrite !mulmx_block !(mul0mx, mulmx0, addr0, add0r, mulmx1).
rewrite rotation_matrix_orthogonal ?quarter_turn_oriented //.
by rewrite rotation_matrix_quarter_turn quarter_turn_diag3.
Qed.

Lemma diag3_mul a b c x y z :
  diag3 a b c *m diag3 x y z = diag3 (a * x) (b * y) (c * z).
Proof.
apply/matrixP => i j; rewrite mxE !big_ord_recl big_ord0 !mxE /=.
by case: i => [[|[|[|?]]] ?] //; case: j => [[|[|[|?]]] ?] //=; ring.
Qed.

Lemma diag3_1 : diag3 1 1 1 = 1%:M :> 'M[F]_3.
Proof.
apply/matrixP => i j; rewrite !mxE.
by case: i => [[|[|[|?]]] ?] //; case: j => [[|[|[|?]]] ?].
Qed.

Lemma diag3_inertia_mulV a b c :
  a != 0 -> b != 0 -> c != 0 ->
  block_mx (diag3 a b c) 0 0 1%:M *m block_mx (diag3 a^-1 b^-1 c^-1) 0 0 1%:M
  = 1%:M :> 'M[F]_(3 + 3).
Proof.
move=> a_neq0 b_neq0 c_neq0.
rewrite mulmx_block !(mul0mx, mulmx0, addr0, add0r, mulmx1).
by rewrite diag3_mul !mulfV // diag3_1 -scalar_mx_block.
Qed.

Lemma diag3_inertia_unit a b c :
  a != 0 -> b != 0 -> c != 0 ->
  (block_mx (diag3 a b c) 0 0 1%:M : 'M[F]_(3 + 3)) \in unitmx.
Proof.
by move=> a_neq0 b_neq0 c_neq0; have /mulmx1_unit[] := diag3_inertia_mulV
  a_neq0 b_neq0 c_neq0.
Qed.

Lemma invmx_diag3_inertia a b c :
  a != 0 -> b != 0 -> c != 0 ->
  invmx (block_mx (diag3 a b c) 0 0 1%:M : 'M[F]_(3 + 3))
  = block_mx (diag3 a^-1 b^-1 c^-1) 0 0 1%:M.
Proof.
move=> a_neq0 b_neq0 c_neq0.
rewrite -[LHS]mulmx1 -(diag3_inertia_mulV a_neq0 b_neq0 c_neq0) mulKmx //.
exact: diag3_inertia_unit.
Qed.

Lemma diagonal_inertia_unit : diagonal_inertia F \in unitmx.
Proof. by apply: diag3_inertia_unit; rewrite ?oner_neq0 ?pnatr_eq0. Qed.

(** The acceleration at the worked configuration: the fixed-frame inertia
    is [diag(1, 3, 2, 1, 1, 1)], and the Coriolis term, the inverse and the
    frame term all contribute. *)
Lemma worked_acceleration :
  spec_acceleration (diagonal_inertia F) (quarter_turn F) (shear_velocity F)
    (unit_force F)
  = col_mx (col3 3%:R 1 (1 / 2%:R)) (col3 2%:R 2%:R (- 1)).
Proof.
rewrite /spec_acceleration /spec_coriolis fixed_diagonal_inertia.
rewrite invmx_diag3_inertia ?oner_neq0 ?pnatr_eq0 //.
rewrite block_mxKul block_mxKur block_mxKdl block_mxKdr.
rewrite /shear_velocity /unit_force col_mxKu col_mxKd.
rewrite !mul_block_col !(mul0mx, mulmx0, addr0, add0r, mul1mx, mulNmx).
rewrite !hat_mulE !diag3_mul_col3 !cross_col3.
rewrite !(opp_col_mx, add_col_mx) !(col3N, col3D) mul_block_col.
rewrite !(mul0mx, mulmx0, addr0, add0r, mul1mx) diag3_mul_col3.
rewrite add_col_mx !col3D.
by congr col_mx; apply: eq_col3; field.
Qed.

End WorkedDynamics.

(** ** More on the driver *)

Section DriverAlgebra.

Local Open Scope nat_scope.

Variable F : fieldType.

Notation vec6 := 'cV[F]_(3 + 3).
Notation step_fn := (Pose F -> vec6 -> vec6 -> result (Pose F * vec6 * vec6)).

Implicit Types (step : step_fn) (forces : seq vec6).
Implicit Types (pose : Pose F) (vel : vec6).

Lemma getitem_ok (T : Type) (s : seq T) n x :
  getitem s n = Ok x -> n < size s.
Proof.
by case: (ltnP n (size s)) => // /(@getitem_oversize T) ->.
Qed.

Lemma getitem_drop (T : Type) (s : seq T) n k :
  getitem (drop n s) k = getitem s (n + k).
Proof. by rewrite /getitem drop_drop addnC. Qed.

(** A run that returns has found a force for each of its steps. *)
Lemma trajectory_size_forces step forces m k pose vel tr :
  k <= size forces ->
  trajectory step forces k m pose vel = Ok tr -> k + m <= size forces.
Proof.
elim: m k pose vel tr => [|m IHm] k pose vel tr le_k /=.
  by rewrite addn0.
case Eforce: (getitem forces k) => [force|e] //=.
case: (step pose vel force) => [[[pose' vel'] acc]|e] //=.
case Etr: trajectory => [tr'|e] //= _.
rewrite -(addSnnS k m); apply: IHm Etr.
exact: getitem_ok Eforce.
Qed.

Lemma trajectory_prefix step forces j m k pose vel ps (vs acs : seq vec6) :
  trajectory step forces k m pose vel = Ok (ps, vs, acs) -> j <= m ->
  trajectory step forces k j pose vel = Ok (take j ps, take j vs, take j acs).
Proof.
elim: j m k pose vel ps vs acs => [|j IHj] m k pose vel ps vs acs.
  by rewrite !take0.
case: m => [|m] //=.
case: (getitem forces k) => [force|e] //=.
case: (step pose vel force) => [[[pose' vel'] acc]|e] //=.
case Etr: trajectory => [[[ps' vs'] acs']|e] //= [<- <- <-] le_jm.
by rewrite (IHj _ _ _ _ _ _ _ Etr).
Qed.

Lemma trajectory_drop step forces n m k pose vel :
  trajectory step (drop n forces) k m pose vel
  = trajectory step forces (n + k) m pose vel.
Proof.
elim: m k pose vel => [|m IHm] k pose vel //=.
rewrite getitem_drop; case: (getitem forces _) => [force|e] //=.
case: (step pose vel force) => [[[pose' vel'] acc]|e] //=.
by rewrite IHm (addnS n k).
Qed.

(** A run of [m1 + m2] steps is a run of [m1] steps followed by a run of
    [m2] steps from the state the first one ends in. *)
Lemma trajectory_cat step forces m1 m2 k pose vel :
  trajectory step forces k (m1 + m2) pose vel
  = tr1 <- trajectory step forces k m1 pose vel ;;
    tr2 <- trajectory step forces (k + m1) m2
             (last pose tr1.1.1) (last vel tr1.1.2) ;;
    Ok (tr1.1.1 ++ tr2.1.1, tr1.1.2 ++ tr2.1.2, tr1.2 ++ tr2.2).
Proof.
elim: m1 k pose vel => [|m1 IHm1] k pose vel /=.
  by rewrite addn0; case: trajectory => [[[ps vs] acs]|e].
case: (getitem forces k) => [force|e] //=.
case: (step pose vel force) => [[[pose' vel'] acc]|e] //=.
rewrite IHm1 (addSnnS k m1).
case: (trajectory step forces k.+1 m1 _ _) => [[[ps1 vs1] acs1]|e] //=.
by case: trajectory => [[[ps2 vs2] acs2]|e].
Qed.

(** X17: the traces of a shorter run are the prefixes of the traces of a
    longer run from the same state over the same forces. *)
Theorem driver_prefix pose0 (vels0 : vec6) forces step n k poses
    (vels accs : seq vec6) :
  apply_discrete_eom pose0 vels0 forces step n = Ok (poses, vels, accs) ->
  k <= n ->
  apply_discrete_eom pose0 vels0 forces step k
  = Ok (take k.+1 poses, take k.+1 vels, take k accs).
Proof.
rewrite !apply_trajectory.
case Etr: trajectory => [[[ps vs] acs]|e] //= [<- <- <-] le_kn.
by rewrite (trajectory_prefix Etr le_kn).
Qed.

(** X18: a run can be resumed: [n] steps, followed by [m] steps from the
    last pose and velocity over the remaining forces, give the traces of
    [n + m] steps, the state at the junction being counted once. *)
Theorem driver_resume pose0 (vels0 : vec6) forces step n m
    ps1 (vs1 as1 : seq vec6) ps2 (vs2 as2 : seq vec6) :
  apply_discrete_eom pose0 vels0 forces step n = Ok (ps1, vs1, as1) ->
  apply_discrete_eom (last pose0 ps1) (last vels0 vs1) (drop n forces) step m
  = Ok (ps2, vs2, as2) ->
  apply_discrete_eom pose0 vels0 forces step (n + m)
  = Ok (ps1 ++ behead ps2, vs1 ++ behead vs2, as1 ++ as2).
Proof.
rewrite !apply_trajectory trajectory_cat trajectory_drop addn0 add0n.
case: trajectory => [[[p1 v1] a1]|e] //= [<- <- <-] /=.
by case: trajectory => [[[p2 v2] a2]|e] //= [<- <- <-].
Qed.

(** X19: a run of at least one step over no force at all raises
    [IndexError], whatever the step function. *)
Theorem driver_no_forces pose0 (vels0 : vec6) step n :
  apply_discrete_eom pose0 vels0 [::] step n.+1 = Raise IndexError.
Proof. by rewrite apply_trajectory. Qed.

(** X20: the driver raises the exception of the first step that fails: if
    [k] steps return and the step function raises [e] on the state they end
    in with the force of index [k], every run of more than [k] steps raises
    [e]. *)
Theorem driver_first_failure pose0 (vels0 : vec6) forces step k m ps
    (vs accs : seq vec6) force e :
  apply_discrete_eom pose0 vels0 forces step k = Ok (ps, vs, accs) ->
  getitem forces k = Ok force ->
  step (last pose0 ps) (last vels0 vs) force = Raise e ->
  apply_discrete_eom pose0 vels0 forces step (k + m.+1) = Raise e.
Proof.
rewrite !apply_trajectory trajectory_cat add0n.
case: trajectory => [[[p1 v1] a1]|e1] //= [<- <- _] /= force_k step_e.
by rewrite force_k /= step_e.
Qed.

End DriverAlgebra.

(** ** More on the integrated motion *)

Section IntegratorAlgebra.

Variable F : realFieldType.
Variables (sqrt cos sin : F -> F).

Notation vec6 := 'cV[F]_(3 + 3).
Notation exp := (from_rotation_vector sqrt cos sin).
Notation eom_fn := (Pose F -> vec6 -> vec6 -> result vec6).

Implicit Types (eom : eom_fn) (dt : F) (forces : seq vec6).

(** What a returned run of the integrator satisfies at each index. *)
Lemma integrator_trace eom dt pose0 (vels0 : vec6) forces n poses
    (vels accs : seq vec6) :
  apply_discrete_eom pose0 vels0 forces
    (generate_discrete_eom sqrt cos sin eom dt) n
  = Ok (poses, vels, accs) ->
  [/\ nth (pose_zero F) poses 0 = pose0, nth 0 vels 0 = vels0 &
      forall i, (i < n)%N ->
        [/\ nth 0 vels i.+1 = nth 0 vels i + dt *: nth 0 accs i,
            pose_t (nth (pose_zero F) poses i.+1)
            = pose_t (nth (pose_zero F) poses i) + dt &
            pose_p (nth (pose_zero F) poses i.+1)
            = pose_p (nth (pose_zero F) poses i)
              + dt *: usubmx (nth 0 vels i.+1)]].
Proof.
rewrite apply_trajectory.
case Etr: trajectory => [[[ps vs] acs]|e] //= [<- <- <-]; split=> // i lt_i.
have le_n := trajectory_size_forces (leq0n _) Etr.
have [_ _ _ /(_ i lt_i)] := (trajectoryP _ _ _ _ _ _ le_n).1 Etr.
rewrite /generate_discrete_eom /discrete_eom /=.
by case: (eom _ _ _) => [acc|e] //= [<- <- <-].
Qed.

(** X21: in a returned run of the integrator, whatever the dynamics, the
    timestamp of the pose of index [i] is the initial one plus [i] time
    steps. *)
Theorem integrator_timestamps eom dt pose0 (vels0 : vec6) forces n poses
    (vels accs : seq vec6) i :
  apply_discrete_eom pose0 vels0 forces
    (generate_discrete_eom sqrt cos sin eom dt) n
  = Ok (poses, vels, accs) ->
  (i <= n)%N ->
  pose_t (nth (pose_zero F) poses i) = pose_t pose0 + dt *+ i.
Proof.
move=> /integrator_trace[pose0E _ rel].
elim: i => [|i IHi] lt_i; first by rewrite pose0E mulr0n addr0.
have [_ -> _] := rel i lt_i.
by rewrite IHi ?mulrS 1?ltnW // -addrA [dt + _]addrC.
Qed.

(** X22: in a returned run of the integrator, the velocity of index [i] is
    the initial velocity plus the time step times the sum of the first [i]
    accelerations. *)
Theorem integrator_velocities eom dt pose0 (vels0 : vec6) forces n poses
    (vels accs : seq vec6) i :
  apply_discrete_eom pose0 vels0 forces
    (generate_discrete_eom sqrt cos sin eom dt) n
  = Ok (poses, vels, accs) ->
  (i <= n)%N ->
  nth 0 vels i = vels0 + dt *: (\sum_(0 <= j < i) nth 0 accs j).
Proof.
move=> /integrator_trace[_ vels0E rel].
elim: i => [|i IHi] lt_i; first by rewrite vels0E big_geq // scaler0 addr0.
have [-> _ _] := rel i lt_i.
by rewrite IHi 1?ltnW // big_nat_recr //= scalerDr addrA.
Qed.

(** X23: in a returned run of the integrator, the position of index [i] is
    the initial position plus the time step times the sum of the linear
    velocities of the indices [1] to [i], the updated ones. *)
Theorem integrator_positions eom dt pose0 (vels0 : vec6) forces n poses
    (vels accs : seq vec6) i :
  apply_discrete_eom pose0 vels0 forces
    (generate_discrete_eom sqrt cos sin eom dt) n
  = Ok (poses, vels, accs) ->
  (i <= n)%N ->
  pose_p (nth (pose_zero F) poses i)
  = pose_p pose0 + dt *: (\sum_(0 <= j < i) usubmx (nth 0 vels j.+1)).
Proof.
move=> /integrator_trace[pose0E _ rel].
elim: i => [|i IHi] lt_i; first by rewrite pose0E big_geq // scaler0 addr0.
have [_ _ ->] := rel i lt_i.
by rewrite IHi 1?ltnW // big_nat_recr //= scalerDr addrA.
Qed.

End IntegratorAlgebra.

(** ** Motion under an isotropic inertia and no force *)

Section UniformMotionTheory.

Variable F : realFieldType.
Variables (sqrt cos sin : F -> F).
Variable lapack : forall n : nat, 'M[F]_n -> option 'M[F]_n.

Notation vec6 := 'cV[F]_(3 + 3).
Notation exp := (from_rotation_vector sqrt cos sin).
Notation generate_equations_of_motion := (generate_equations_of_motion lapack).
Notation integrator M_body dt :=
  (generate_discrete_eom sqrt cos sin (generate_equations_of_motion M_body) dt).

Implicit Types (a dt t : F) (v : vec6) (p : 'cV[F]_3) (q : quaternion F).

Lemma discrete_eom_isotropic a dt (pose : Pose F) v :
  a != 0 -> qnorm2 (pose_q pose) != 0 ->
  integrator a%:M dt pose v 0
  = Ok (mkPose (pose_t pose + dt) (pose_p pose + dt *: usubmx v)
               (qmul (exp (dt *: dsubmx v)) (pose_q pose)), v, 0).
Proof.
move=> a_neq0 q_neq0.
rewrite /generate_discrete_eom /discrete_eom eom_isotropic //=.
by rewrite !scaler0 addr0.
Qed.

Lemma trajectory_uniform a dt v n m k t p q :
  a != 0 -> qnorm2 (exp (dt *: dsubmx v)) != 0 ->
  (k + m <= n)%N -> qnorm2 q != 0 ->
  trajectory (integrator a%:M dt) (nseq n 0) k m (mkPose t p q) v
  = Ok ([seq mkPose (t + dt *+ i.+1) (p + (dt *: usubmx v) *+ i.+1)
                    (iter i.+1 (qmul (exp (dt *: dsubmx v))) q)
        | i <- iota 0 m],
        nseq m v, nseq m 0).
Proof.
move=> a_neq0 turn_neq0.
move: (integrator a%:M dt) (@discrete_eom_isotropic a dt) => step stepE.
elim: m k t p q => [|m IHm] k t p q le_kmn q_neq0 //=.
have lt_kn : (k < n)%N.
  by rewrite (leq_trans _ le_kmn) // -(addSnnS k m) leq_addr.
have le_kmn' : (k.+1 + m <= n)%N by rewrite (addSnnS k m).
rewrite (getitem_nth 0) ?size_nseq // nth_nseq lt_kn /= stepE //=.
rewrite (IHm _ _ _ _ le_kmn') ?qnorm2_mul ?mulf_neq0 //= !mulr1n.
congr (Ok (_ :: _, _, _)).
rewrite -[iota 1 m]/(iota (1 + 0) m) iotaDl -map_comp; apply: eq_map => i /=.
by rewrite add1n ![_ *+ i.+2]mulrS !addrA -iterSr.
Qed.

(** The run of [k] steps, [k] at most the number of zero forces. *)
Lemma run_uniform a dt (pose0 : Pose F) v n k :
  a != 0 -> qnorm2 (pose_q pose0) != 0 ->
  qnorm2 (exp (dt *: dsubmx v)) != 0 -> (k <= n)%N ->
  apply_discrete_eom pose0 v (nseq n 0) (integrator a%:M dt) k
  = Ok (uniform_traces dt (exp (dt *: dsubmx v)) pose0 v k).
Proof.
case: pose0 => t p q /= a_neq0 q_neq0 turn_neq0 le_kn.
rewrite apply_trajectory (@trajectory_uniform _ _ _ n) //=.
rewrite /with_initial_state /uniform_traces /= !mulr0n !addr0.
congr (Ok (_ :: _, _, _)).
by rewrite -[iota 1 k]/(iota (1 + 0) k) iotaDl -map_comp.
Qed.

(** X24: uniform motion.  With an isotropic body inertia [a . I], [a]
    nonzero, zero forces and any initial velocity, from a pose whose
    orientation has a rotation matrix and for a per-step rotation of nonzero
    norm, the driver returns: velocities all equal to the initial one,
    accelerations all zero, positions that advance by [dt] times the linear
    velocity per index, timestamps that advance by [dt], and orientations
    obtained by multiplying on the left by the same rotation at each
    index. *)
Theorem uniform_motion a dt (pose0 : Pose F) v n :
  a != 0 -> qnorm2 (pose_q pose0) != 0 ->
  qnorm2 (exp (dt *: dsubmx v)) != 0 ->
  apply_discrete_eom pose0 v (nseq n 0) (integrator a%:M dt) n
  = Ok ([seq mkPose (pose_t pose0 + dt *+ i)
                    (pose_p pose0 + (dt *: usubmx v) *+ i)
                    (iter i (qmul (exp (dt *: dsubmx v))) (pose_q pose0))
        | i <- iota 0 n.+1],
        nseq n.+1 v, nseq n 0).
Proof. by move=> a_neq0 q_neq0 turn_neq0; rewrite run_uniform. Qed.

End UniformMotionTheory.

(** ** The further statements at the concrete configuration *)

Section FurtherInstances.

Notation vec6 := 'cV[rat]_(3 + 3).
Notation inv := (inv lapack_returns).
Notation eomB := (eomB lapack_returns).
Notation generate_equations_of_motion :=
  (generate_equations_of_motion lapack_returns).
Notation exp := (from_rotation_vector newton_sqrt taylor_cos taylor_sin).

Lemma qnorm2_qone (F : fieldType) : qnorm2 (qone F) = 1.
Proof. by rewrite /qnorm2 /=; ring. Qed.

Lemma eq_Quat (F : fieldType) (w x y z w' x' y' z' : F) :
  w = w' -> x = x' -> y = y' -> z = z' -> Quat w x y z = Quat w' x' y' z'.
Proof. by move=> -> -> -> ->. Qed.

Lemma qmulE (F : fieldType) (w x y z w' x' y' z' : F) :
  qmul (Quat w x y z) (Quat w' x' y' z')
  = Quat (w * w' - x * x' - y * y' - z * z')
         (w * x' + x * w' + y * z' - z * y')
         (w * y' - x * z' + y * w' + z * x')
         (w * z' + x * y' - y * x' + z * w').
Proof. by []. Qed.

Lemma eq_step (F : fieldType) (t t' : F) p p' q q'
    (v v' a a' : 'cV[F]_(3 + 3)) :
  t = t' -> p = p' -> q = q' -> v = v' -> a = a' ->
  (mkPose t p q, v, a) = (mkPose t' p' q', v', a').
Proof. by move=> -> -> -> -> ->. Qed.

Lemma spec_stepE (F : realFieldType) (sqrt cos sin : F -> F) dt t p q
    (vel accel : 'cV[F]_(3 + 3)) :
  spec_step sqrt cos sin dt (mkPose t p q) vel accel
  = (mkPose (t + dt) (p + dt *: usubmx (vel + dt *: accel))
       (qmul (spec_exponential sqrt cos sin
                (dt *: dsubmx (vel + dt *: accel))) q),
     vel + dt *: accel, accel).
Proof. by case: q. Qed.

Lemma rest_turn_oriented : qnorm2 rest_turn != 0.
Proof.
by rewrite /rest_turn linear0 scaler0 from_rotation_vector0 qnorm2_qone
           oner_neq0.
Qed.

Lemma rest_run n k :
  (k <= n)%N ->
  apply_discrete_eom rest_pose 0 (nseq n 0) unit_integrator k
  = Ok (rest_traces k).
Proof.
move=> le_kn; rewrite /unit_integrator /rest_traces.
exact: (run_uniform lapack_returns (oner_neq0 _) rest_pose_oriented
          rest_turn_oriented).
Qed.

Lemma two_nonzero : (2%:R : rat) != 0.
Proof. by rewrite pnatr_eq0. Qed.

Lemma skew_inertia_unit : skew_inertia \in unitmx.
Proof.
rewrite unitmxE /skew_inertia det_ublock det1 det_scalar mul1r unitfE.
exact: expf_neq0 two_nonzero.
Qed.

(** *** Values of the stand-ins and of the integration step *)

Lemma getv_const_mx (c : rat) k : (k < 3)%N -> getv (const_mx c) k = c.
Proof.
by rewrite /getv => lt_k3; case: insubP => [i _ _|]; rewrite ?mxE ?lt_k3.
Qed.

Lemma usubmx_const (c : rat) :
  usubmx (const_mx c : vec6) = const_mx c.
Proof. by apply/matrixP => i j; rewrite !mxE. Qed.

Lemma dsubmx_const (c : rat) :
  dsubmx (const_mx c : vec6) = const_mx c.
Proof. by apply/matrixP => i j; rewrite !mxE. Qed.

Lemma const_mx_affine m (a b c : rat) :
  const_mx a + b *: const_mx c = const_mx (a + b * c) :> 'cV[rat]_m.
Proof. by apply/matrixP => i j; rewrite !mxE. Qed.

Lemma scale_const_mx m (b c : rat) :
  b *: const_mx c = const_mx (b * c) :> 'cV[rat]_m.
Proof. by apply/matrixP => i j; rewrite !mxE. Qed.

(** With the identity as inertia the acceleration is the force. *)
Lemma unit_inertia_run :
  generate_equations_of_motion 1%:M tilted_pose spin_velocity push_force
  = Ok push_force.
Proof.
by rewrite (eom_isotropic _ _ _ (oner_neq0 _) tilted_pose_oriented) invr1
           scale1r.
Qed.

(** The velocity after the step, its rotation vector and the half length
    of it. *)
Lemma stepped_velocity :
  spin_velocity + two_seconds *: push_force = const_mx 3%:R.
Proof.
rewrite /spin_velocity /push_force /two_seconds const_mx_affine.
by congr const_mx; ring.
Qed.

Lemma stepped_rotation :
  two_seconds *: dsubmx (spin_velocity + two_seconds *: push_force)
  = const_mx 6%:R.
Proof.
rewrite stepped_velocity dsubmx_const /two_seconds scale_const_mx.
by congr const_mx; ring.
Qed.

Lemma half_norm2_stepped : half_norm2 (const_mx 6%:R : 'cV[rat]_3) = 27%:R.
Proof. by rewrite /half_norm2 !getv_const_mx //; field. Qed.

Lemma stepped_above_threshold :
  quaternion_eps rat ^+ 2 < half_norm2 (const_mx 6%:R : 'cV[rat]_3).
Proof.
rewrite half_norm2_stepped; apply: (@le_lt_trans _ _ 1); last by rewrite ltr1n.
by rewrite expr_le1 ?quaternion_eps_le1 // ltW // quaternion_eps_gt0.
Qed.

Lemma exact_exponential_stepped :
  exact_exponential newton_sqrt taylor_cos taylor_sin
    (const_mx 6%:R : 'cV[rat]_3)
  = Quat (- 97%:R) (- 95%:R) (- 95%:R) (- 95%:R).
Proof.
rewrite /exact_exponential half_norm2_stepped !getv_const_mx //.
have -> : newton_sqrt 27%:R = 14%:R by rewrite /newton_sqrt; field.
have -> : taylor_cos 14%:R = - 97%:R by rewrite /taylor_cos; field.
have -> : taylor_sin 14%:R = - (1330%:R / 3%:R) by rewrite /taylor_sin; field.
have -> : (const_mx 6%:R == 0 :> 'cV[rat]_3) = false.
  apply/eqP => /matrixP/(_ 0 0); rewrite !mxE => /eqP.
  by rewrite pnatr_eq0.
apply: eq_Quat; field.
Qed.

Lemma stepped_pose :
  spec_step newton_sqrt taylor_cos taylor_sin two_seconds tilted_pose
    spin_velocity push_force
  = (mkPose 3%:R (const_mx 7%:R)
       (Quat 758%:R (- 384%:R) (- 196%:R) (- 578%:R)),
     const_mx 3%:R, push_force).
Proof.
rewrite /tilted_pose spec_stepE stepped_rotation stepped_velocity.
rewrite -from_rotation_vectorE.
rewrite (from_rotation_vector_above _ _ _ stepped_above_threshold).
rewrite exact_exponential_stepped usubmx_const /two_seconds const_mx_affine.
rewrite qmulE.
apply: eq_step; [ring | | apply: eq_Quat; ring | reflexivity | reflexivity].
apply/matrixP => i j; rewrite !mxE; ring.
Qed.

(** *** The stand-ins at the rotation vector [(1e-14, 0, 0)] *)

Lemma tiny_half_norm2_bounds :
  0 <= quaternion_eps rat ^+ 2 / 4%:R <= 1.
Proof.
apply/andP; split; first by rewrite divr_ge0 ?sqr_ge0 ?ler0n.
rewrite ler_pdivrMr ?ltr0n // mul1r.
apply: (@le_trans _ _ 1); last by rewrite ler1n.
by rewrite expr_le1 ?quaternion_eps_le1 // ltW // quaternion_eps_gt0.
Qed.

Lemma newton_sqrt_bounds (x : rat) :
  0 <= x <= 1 -> 0 < newton_sqrt x <= 1.
Proof.
case/andP=> x_ge0 x_le1; rewrite /newton_sqrt; apply/andP; split.
  by rewrite divr_gt0 ?ltr0n // ltr_wpDr.
by rewrite ler_pdivrMr ?ltr0n // mul1r (natrD _ 1 1) lerD.
Qed.

Lemma taylor_sin_neq0 (x : rat) : 0 < x <= 1 -> taylor_sin x != 0.
Proof.
case/andP=> x_gt0 x_le1; rewrite /taylor_sin gt_eqF // subr_gt0.
rewrite ltr_pdivrMr ?ltr0n //.
apply: (@le_lt_trans _ _ x); last by rewrite ltr_pMr // ltr1n.
rewrite -[leRHS]mul1r ler_wpM2r ?(ltW x_gt0) //.
by rewrite mulr_ile1 // ltW.
Qed.

Lemma transform_transpose_witness :
  (1%:M : 'M[rat]_(3 + 3))^T = 1%:M
  /\ (transform_spatial_inertia 1%:M unit_displacement)^T
     = transform_spatial_inertia 1%:M unit_displacement.
Proof.
have sym : (1%:M : 'M[rat]_(3 + 3))^T = 1%:M by exact: trmx1.
split; first exact: sym.
exact: (proj2 (transform_transpose 1%:M unit_displacement) sym).
Defined.

Lemma eomB_power_balance_witness :
  skew_inertia \in unitmx
  /\ exists2 acc, eomB skew_inertia spin_velocity push_force = Ok acc
       & spin_velocity^T *m (skew_inertia *m acc)
         = spin_velocity^T *m push_force.
Proof.
split; first exact: skew_inertia_unit.
exact: (eomB_power_balance lapack_returns spin_velocity push_force
          skew_inertia_unit).
Defined.

Lemma eom_zero_velocity_witness :
  [/\ (1%:M : 'M[rat]_(3 + 3)) \in unitmx, qnorm2 (pose_q rest_pose) != 0 &
      generate_equations_of_motion 1%:M rest_pose 0 drift_velocity
      = Ok (invmx (spec_fixed_inertia 1%:M (pose_q rest_pose))
            *m drift_velocity)].
Proof.
have M_unit : (1%:M : 'M[rat]_(3 + 3)) \in unitmx by exact: unitmx1.
split; [exact: M_unit | exact: rest_pose_oriented |].
exact: (eom_zero_velocity lapack_returns drift_velocity M_unit
          rest_pose_oriented).
Defined.

Lemma eom_affine_in_force_witness :
  [/\ qnorm2 (pose_q tilted_pose) != 0, skew_inertia \in unitmx,
      generate_equations_of_motion skew_inertia tilted_pose spin_velocity
        (push_force + drift_velocity)
      = (Minv <- inv (spec_fixed_inertia skew_inertia (pose_q tilted_pose)) ;;
         acc <- generate_equations_of_motion skew_inertia tilted_pose
                  spin_velocity push_force ;;
         Ok (acc + Minv *m drift_velocity)) &
      generate_equations_of_motion skew_inertia tilted_pose spin_velocity
        (push_force + drift_velocity)
      = acc <- generate_equations_of_motion skew_inertia tilted_pose
                 spin_velocity push_force ;;
        Ok (acc + invmx (spec_fixed_inertia skew_inertia (pose_q tilted_pose))
                  *m drift_velocity)].
Proof.
have [affine affine_unit] :=
  eom_affine_in_force lapack_returns skew_inertia spin_velocity push_force
    drift_velocity tilted_pose_oriented.
split; [exact: tilted_pose_oriented | exact: skew_inertia_unit
       | exact: affine | exact: (affine_unit skew_inertia_unit)].
Defined.

Lemma eom_isotropic_inertia_witness :
  [/\ (2%:R : rat) != 0, qnorm2 (pose_q far_pose) != 0 &
      generate_equations_of_motion (2%:R)%:M far_pose drift_velocity
        drift_velocity
      = Ok ((2%:R)^-1 *: drift_velocity)].
Proof.
have q_neq0 : qnorm2 (pose_q far_pose) != 0 by exact: rest_pose_oriented.
split; [exact: two_nonzero | exact: q_neq0 |].
exact: (eom_isotropic_inertia lapack_returns drift_velocity drift_velocity
          two_nonzero q_neq0).
Defined.

Lemma driver_prefix_witness :
  [/\ apply_discrete_eom rest_pose 0 (nseq 3 0) unit_integrator 3
      = Ok (rest_traces 3), (2 <= 3)%N &
      apply_discrete_eom rest_pose 0 (nseq 3 0) unit_integrator 2
      = Ok (take 3 (rest_traces 3).1.1, take 3 (rest_traces 3).1.2,
            take 2 (rest_traces 3).2)].
Proof.
have run := rest_run (leqnn 3).
have le_23 : (2 <= 3)%N by [].
split; [exact: run | exact: le_23 |].
exact: (driver_prefix run le_23).
Defined.

Lemma driver_resume_witness :
  [/\ apply_discrete_eom rest_pose 0 (nseq 2 0) unit_integrator 1
      = Ok (rest_traces 1),
      apply_discrete_eom (last rest_pose (rest_traces 1).1.1)
        (last 0 (rest_traces 1).1.2) (drop 1 (nseq 2 0)) unit_integrator 1
      = Ok (uniform_traces millisecond rest_turn
              (last rest_pose (rest_traces 1).1.1) 0 1) &
      apply_discrete_eom rest_pose 0 (nseq 2 0) unit_integrator (1 + 1)
      = Ok ((rest_traces 1).1.1
            ++ behead (uniform_traces millisecond rest_turn
                         (last rest_pose (rest_traces 1).1.1) 0 1).1.1,
            (rest_traces 1).1.2
            ++ behead (uniform_traces millisecond rest_turn
                         (last rest_pose (rest_traces 1).1.1) 0 1).1.2,
            (rest_traces 1).2
            ++ (uniform_traces millisecond rest_turn
                  (last rest_pose (rest_traces 1).1.1) 0 1).2)].
Proof.
have le_12 : (1 <= 2)%N by [].
have run1 := rest_run le_12.
have q1_neq0 : qnorm2 (pose_q (last rest_pose (rest_traces 1).1.1)) != 0.
  rewrite -[pose_q _]/(qmul rest_turn (qone rat)) qnorm2_mul.
  by rewrite mulf_neq0 ?rest_turn_oriented ?qnorm2_qone ?oner_neq0.
have run2 :
  apply_discrete_eom (last rest_pose (rest_traces 1).1.1)
    (last 0 (rest_traces 1).1.2) (drop 1 (nseq 2 0)) unit_integrator 1
  = Ok (uniform_traces millisecond rest_turn
          (last rest_pose (rest_traces 1).1.1) 0 1).
  exact: (run_uniform (n := 1) lapack_returns (oner_neq0 _) q1_neq0
            rest_turn_oriented (leqnn 1)).
split; [exact: run1 | exact: run2 |].
exact: (driver_resume run1 run2).
Defined.

Lemma driver_first_failure_witness :
  [/\ apply_discrete_eom rest_pose 0 (nseq 2 0) singular_integrator 0
      = Ok ([:: rest_pose], [:: 0], [::]),
      getitem (nseq 2 (0 : vec6)) 0 = Ok 0,
      singular_integrator (last rest_pose [:: rest_pose]) (last 0 [:: 0]) 0
      = Raise LinAlgError &
      apply_discrete_eom rest_pose 0 (nseq 2 0) singular_integrator (0 + 2)
      = Raise LinAlgError].
Proof.
have run0 :
  apply_discrete_eom rest_pose 0 (nseq 2 0) singular_integrator 0
  = Ok ([:: rest_pose], [:: 0], [::]) by [].
have force0 : getitem (nseq 2 (0 : vec6)) 0 = Ok 0 by [].
have step0 :
  singular_integrator (last rest_pose [:: rest_pose]) (last 0 [:: 0]) 0
  = Raise LinAlgError.
  exact: (discrete_eom_zero_inertia newton_sqrt taylor_cos taylor_sin
            lapack_returns millisecond 0 0 rest_pose_oriented).
split; [exact: run0 | exact: force0 | exact: step0 |].
exact: (driver_first_failure 1 run0 force0 step0).
Defined.

Lemma integrator_timestamps_witness :
  [/\ apply_discrete_eom rest_pose 0 (nseq 3 0) unit_integrator 3
      = Ok (rest_traces 3), (2 <= 3)%N &
      pose_t (nth (pose_zero rat) (rest_traces 3).1.1 2)
      = pose_t rest_pose + millisecond *+ 2].
Proof.
have run := rest_run (leqnn 3).
have le_23 : (2 <= 3)%N by [].
split; [exact: run | exact: le_23 |].
exact: (integrator_timestamps run le_23).
Defined.

Lemma integrator_velocities_witness :
  [/\ apply_discrete_eom rest_pose 0 (nseq 3 0) unit_integrator 3
      = Ok (rest_traces 3), (2 <= 3)%N &
      nth 0 (rest_traces 3).1.2 2
      = 0 + millisecond *: (\sum_(0 <= j < 2) nth 0 (rest_traces 3).2 j)].
Proof.
have run := rest_run (leqnn 3).
have le_23 : (2 <= 3)%N by [].
split; [exact: run | exact: le_23 |].
exact: (integrator_velocities run le_23).
Defined.

Lemma integrator_positions_witness :
  [/\ apply_discrete_eom rest_pose 0 (nseq 3 0) unit_integrator 3
      = Ok (rest_traces 3), (2 <= 3)%N &
      pose_p (nth (pose_zero rat) (rest_traces 3).1.1 2)
      = pose_p rest_pose
        + millisecond
          *: (\sum_(0 <= j < 2) usubmx (nth 0 (rest_traces 3).1.2 j.+1))].
Proof.
have run := rest_run (leqnn 3).
have le_23 : (2 <= 3)%N by [].
split; [exact: run | exact: le_23 |].
exact: (integrator_positions run le_23).
Defined.

Lemma drift_turn_oriented :
  qnorm2 (from_rotation_vector newton_sqrt taylor_cos taylor_sin
            (millisecond *: dsubmx drift_velocity)) != 0.
Proof.
by rewrite /drift_velocity col_mxKd scaler0 from_rotation_vector0 qnorm2_qone
           oner_neq0.
Qed.

Lemma uniform_motion_witness :
  [/\ (2%:R : rat) != 0, qnorm2 (pose_q rest_pose) != 0,
      qnorm2 (from_rotation_vector newton_sqrt taylor_cos taylor_sin
                (millisecond *: dsubmx drift_velocity)) != 0 &
      apply_discrete_eom rest_pose drift_velocity (nseq 2 0)
        heavy_integrator 2
      = Ok ([seq mkPose (pose_t rest_pose + millisecond *+ i)
                   (pose_p rest_pose
                    + (millisecond *: usubmx drift_velocity) *+ i)
                   (iter i
                      (qmul (from_rotation_vector newton_sqrt taylor_cos
                               taylor_sin
                               (millisecond *: dsubmx drift_velocity)))
                      (pose_q rest_pose))
            | i <- iota 0 3],
            nseq 3 drift_velocity, nseq 2 0)].
Proof.
split; [exact: two_nonzero | exact: rest_pose_oriented
       | exact: drift_turn_oriented |].
exact: (uniform_motion lapack_returns 2 two_nonzero rest_pose_oriented
          drift_turn_oriented).
Defined.

(** *** The dynamics and the integration step at a tilted pose *)

Lemma eom_acceleration_witness :
  [/\ diagonal_inertia rat \in unitmx,
      qnorm2 (pose_q (quarter_pose rat)) != 0 &
      generate_equations_of_motion (diagonal_inertia rat) (quarter_pose rat)
        (shear_velocity rat) (unit_force rat)
      = Ok (col_mx (col3 3%:R 1 (1 / 2%:R)) (col3 2%:R 2%:R (- 1)))].
Proof.
have M_unit := diagonal_inertia_unit rat.
have q_neq0 : qnorm2 (pose_q (quarter_pose rat)) != 0.
  exact: quarter_turn_oriented.
split; [exact: M_unit | exact: q_neq0 |].
have [run _ _ _ _] :=
  eom_acceleration lapack_returns (shear_velocity rat) (unit_force rat)
    M_unit q_neq0.
rewrite run -(worked_acceleration rat).
reflexivity.
Defined.

(** The exponential of the library at the rotation vector [(1e-14, 0, 0)],
    which is not zero: the identity quaternion, where the exponential map
    has a vector part that is not zero. *)
Lemma exponential_below_threshold :
  [/\ tiny_rotation rat != 0,
      exp (tiny_rotation rat) = Quat 1 0 0 0 &
      qx (exact_exponential newton_sqrt taylor_cos taylor_sin
            (tiny_rotation rat)) != 0].
Proof.
split; [exact: tiny_rotation_neq0 | exact: from_rotation_vector_tiny |].
have /andP[n_gt0 n_le1] := newton_sqrt_bounds tiny_half_norm2_bounds.
apply: exact_exponential_tiny; first by rewrite gt_eqF.
by apply: taylor_sin_neq0; rewrite n_gt0.
Qed.

Lemma discrete_eom_semi_implicit_euler_witness :
  [/\ generate_equations_of_motion 1%:M tilted_pose spin_velocity push_force
      = Ok push_force,
      generate_discrete_eom newton_sqrt taylor_cos taylor_sin
        (generate_equations_of_motion 1%:M) two_seconds tilted_pose
        spin_velocity push_force
      = Ok (mkPose 3%:R (const_mx 7%:R)
              (Quat 758%:R (- 384%:R) (- 196%:R) (- 578%:R)),
            const_mx 3%:R, push_force),
      exp (const_mx 6%:R) = Quat (- 97%:R) (- 95%:R) (- 95%:R) (- 95%:R) &
      exp (tiny_rotation rat) = Quat 1 0 0 0].
Proof.
have [run above below _ _] :=
  discrete_eom_semi_implicit_euler newton_sqrt taylor_cos taylor_sin
    two_seconds unit_inertia_run.
split; first exact: unit_inertia_run.
- by rewrite run stepped_pose.
- by rewrite (above _ stepped_above_threshold) exact_exponential_stepped.
- exact: (below _ (tiny_rotation_below rat)).
Defined.

End FurtherInstances.
